(** * Replication interceptors of gorums-ata: a shallow embedding

    The Go package [interceptors] wraps an RPC handler chain with a stage
    that replicates selected requests to a set of peer nodes.  This file
    embeds [NewBroadcastInterceptor] and [NewSelectiveBroadcastInterceptor]
    and proves the properties the specification states about them.

    Modelling choices, in one place:
    - [map[string]struct{}] is a [gset string]; Go's [len] is [size].
    - A [range] loop over a Go map visits the keys in an order the runtime
      picks afresh each time.  The order is an input of each invocation: a
      function from the map to the list of its keys, required to be a
      permutation of the keys ([RangeOrder]).
    - Calls to collaborators outside the package ([next], [proto.Marshal],
      [sha256.Sum256], [log.Printf], the predicate of the selective variant)
      and the [go] statement are recorded in a trace of [Event]s, in program
      order; [next] additionally threads the state of the application it
      fronts.
    - The mutex makes the cache section atomic; invocations are therefore
      modelled as running one after the other on the cache.
    - The goroutines of the fan-out, one per node, run concurrently: each is
      a machine with the states spawned, calling and finished, a run is a
      schedule of their steps, and [RPCCall] may return a reply, return an
      error or never return. *)

From Stdlib Require Import ZArith Lia Strings.Ascii Strings.Byte.
From stdpp Require Import base gmap sets list strings pretty.

Local Open Scope Z_scope.

(** ** Hexadecimal formatting: [fmt.Sprintf("%x", bs)] *)

Definition hex_digit (n : N) : ascii :=
  match n with
  | 0%N => "0" | 1%N => "1" | 2%N => "2" | 3%N => "3"
  | 4%N => "4" | 5%N => "5" | 6%N => "6" | 7%N => "7"
  | 8%N => "8" | 9%N => "9" | 10%N => "a" | 11%N => "b"
  | 12%N => "c" | 13%N => "d" | 14%N => "e" | _ => "f"
  end%char.

Definition hex_byte (b : byte) : string :=
  let n := Byte.to_N b in
  String (hex_digit (n / 16)) (String (hex_digit (n mod 16)) EmptyString).

Fixpoint hex (bs : list byte) : string :=
  match bs with
  | [] => EmptyString
  | b :: bs' => String.append (hex_byte b) (hex bs')
  end.

(** ** The bounds written in the source *)

(** [if len(broadcastedHashes) > 10000] *)
Definition cacheLimit : Z := 10000.
(** [if count >= 5000 { break }] *)
Definition evictCount : Z := 5000.

(** ** The deduplication cache *)

(** An iteration order is legitimate when it lists every key once. *)
Definition RangeOrder (order : gset string → list string) : Prop :=
  ∀ m : gset string, order m ≡ₚ elements m.

(** The loop
<<
    count := 0
    for h := range broadcastedHashes {
        delete(broadcastedHashes, h)
        count++
        if count >= 5000 { break }
    }
>>
    over the keys in the order the runtime produced them.  Only the key
    under the cursor is deleted, so no key still to come disappears and
    the loop sees exactly the keys of the map at its start. *)
Fixpoint range_delete (keys : list string) (count : Z) (m : gset string)
  : gset string :=
  match keys with
  | [] => m
  | h :: keys' =>
      let m := m ∖ {[ h ]} in
      let count := count + 1 in
      if bool_decide (count >= evictCount) then m
      else range_delete keys' count m
  end.

(** The critical section between [mu.Lock()] and [mu.Unlock()]: returns the
    cache afterwards and [alreadyBroadcasted]. *)
Definition checkAndMark (order : gset string → list string) (hashStr : string)
    (broadcastedHashes : gset string) : gset string * bool :=
  let alreadyBroadcasted := bool_decide (hashStr ∈ broadcastedHashes) in
  if negb alreadyBroadcasted then
    let broadcastedHashes := {[ hashStr ]} ∪ broadcastedHashes in
    if bool_decide (Z.of_nat (size broadcastedHashes) > cacheLimit) then
      (range_delete (order broadcastedHashes) 0 broadcastedHashes,
       alreadyBroadcasted)
    else (broadcastedHashes, alreadyBroadcasted)
  else (broadcastedHashes, alreadyBroadcasted).

(** The key [h], inserted into [m], is still there when the lock is
    released: the insertion does not overflow the cache, or the loop stops
    before it reaches [h]. *)
Definition survives_insertion (order : gset string → list string)
    (h : string) (m : gset string) : Prop :=
  Z.of_nat (size m) < cacheLimit
  ∨ h ∉ take (Z.to_nat evictCount) (order ({[ h ]} ∪ m)).

(** The order that hands the loop the key [h] first: one of the orders the
    runtime may pick. *)
Definition newest_first (h : string) (m : gset string) : list string :=
  if decide (h ∈ m) then h :: elements (m ∖ {[ h ]}) else elements m.

(** ** The fan-out goroutines

    The goroutine an interceptor spawns starts one goroutine for each node
    and waits for them.  The goroutines of the nodes run concurrently: each
    is a small machine of its own, and a run is a schedule, the list of the
    goroutines that take the successive steps.  Nothing is assumed of a
    schedule, and a call may never return. *)

Section FanOut.
Context {Node ProtoMessage Reply Err : Type}.

(** What the broadcast goroutines do that is visible outside. *)
Inductive NetEvent :=
| NetCall (n : Node) (req : ProtoMessage) (method : string)
| NetLog (format : string) (n : Node) (e : option Err).

(** [gorums.RPCCall(n.Context(broadcastCtx), msgCopy, method)]: the reply
    and the error once the call returns (a timeout of the 5 second context,
    a connection error and a rejection by the peer are errors), or [None]
    for a call that does not return. *)
Definition Rpc : Type :=
  Node → ProtoMessage → string → option (Reply * option Err).

(** Where the goroutine of a node is: started by [go] and not yet run,
    inside [gorums.RPCCall], or returned (its [wg.Done()] has run). *)
Inductive Status := Spawned | Calling | Finished.

(** What the goroutine of a node does with what its call returned.  In
    [NewBroadcastInterceptor]: [_, _ = gorums.RPCCall(...)]. *)
Definition broadcast_return (n : Node) (r : Reply * option Err)
  : list NetEvent :=
  let '(_, _) := r in [].

(** In [NewSelectiveBroadcastInterceptor] the outcome is logged. *)
Definition selective_return (n : Node) (r : Reply * option Err)
  : list NetEvent :=
  let '(_, callErr) := r in
  match callErr with
  | Some e =>
      [NetLog "SelectiveBroadcastInterceptor: Failed to broadcast to %s: %v"
         n (Some e)]
  | None => [NetLog "SelectiveBroadcastInterceptor: Broadcasted to %s" n None]
  end.

(** One step of the goroutine of a node: it issues its call; later the call
    returns, if it does, and the goroutine ends. *)
Definition node_step (RPCCall : Rpc)
    (on_return : Node → Reply * option Err → list NetEvent)
    (msgCopy : ProtoMessage) (method : string) (g : Node * Status)
  : (Node * Status) * list NetEvent :=
  match g with
  | (n, Spawned) => ((n, Calling), [NetCall n msgCopy method])
  | (n, Calling) =>
      match RPCCall n msgCopy method with
      | Some r => ((n, Finished), on_return n r)
      | None => ((n, Calling), [])
      end
  | (n, Finished) => ((n, Finished), [])
  end.

(** [for _, node := range cfg.Nodes() { wg.Add(1); go func(n){...}(node) }]:
    one goroutine per entry of the node list. *)
Definition spawn_all (nodes : list Node) : list (Node * Status) :=
  (λ n, (n, Spawned)) <$> nodes.

(** [wg.Wait()] returns once every goroutine has ended. *)
Definition all_done (pool : list (Node * Status)) : bool :=
  forallb (λ g, match g.2 with Finished => true | _ => false end) pool.

(** The scheduler lets goroutine [i] take a step. *)
Definition pool_step (RPCCall : Rpc)
    (on_return : Node → Reply * option Err → list NetEvent)
    (msgCopy : ProtoMessage) (method : string) (i : nat)
    (pool : list (Node * Status)) : list (Node * Status) * list NetEvent :=
  match pool !! i with
  | Some g =>
      let '(g', t) := node_step RPCCall on_return msgCopy method g in
      (<[i := g']> pool, t)
  | None => (pool, [])
  end.

Fixpoint run_schedule (RPCCall : Rpc)
    (on_return : Node → Reply * option Err → list NetEvent)
    (msgCopy : ProtoMessage) (method : string) (schedule : list nat)
    (pool : list (Node * Status)) : list (Node * Status) * list NetEvent :=
  match schedule with
  | [] => (pool, [])
  | i :: schedule' =>
      let '(pool1, t1) := pool_step RPCCall on_return msgCopy method i pool in
      let '(pool2, t2) :=
        run_schedule RPCCall on_return msgCopy method schedule' pool1 in
      (pool2, t1 ++ t2)
  end.

(** The nodes a trace calls, in the order of the calls. *)
Fixpoint called (t : list NetEvent) : list Node :=
  match t with
  | [] => []
  | NetCall n _ _ :: t' => n :: called t'
  | NetLog _ _ _ :: t' => called t'
  end.

(** The nodes whose goroutine has not issued its call. *)
Fixpoint pending (pool : list (Node * Status)) : list Node :=
  match pool with
  | [] => []
  | (n, Spawned) :: pool' => n :: pending pool'
  | _ :: pool' => pending pool'
  end.

(** Goroutine [i] of the pool has issued its call. *)
Definition has_called (pool : list (Node * Status)) (i : nat) : Prop :=
  ∃ n st, pool !! i = Some (n, st) ∧ st ≠ Spawned.

(** Two pools of the same nodes in which the same goroutines have yet to
    issue their call. *)
Definition same_pending (pool pool' : list (Node * Status)) : Prop :=
  Forall2 (λ g g', g.1 = g'.1 ∧ (g.2 = Spawned ↔ g'.2 = Spawned)) pool pool'.

(** A schedule that lets each of [k] goroutines run at least once. *)
Definition runs_all (k : nat) (schedule : list nat) : Prop :=
  ∀ i : nat, (i < k)%nat → i ∈ schedule.
End FanOut.

Arguments NetEvent : clear implicits.
Arguments Rpc : clear implicits.

(** ** The collaborators of the package

    Everything the interceptors use from [gorums], [proto], [sha256] and the
    application is outside this repository's two functions; it is gathered
    in one interface and every statement below holds for each instance. *)

Class Host := {
  (** [gorums.ServerCtx], [*gorums.Message], [proto.Message], [*gorums.Node],
      non-nil [error] values, [gorums.Configuration] *)
  ServerCtx : Type;
  Message : Type;
  ProtoMessage : Type;
  Node : Type;
  Err : Type;
  Configuration : Type;
  (** the state of the application behind [next] *)
  World : Type;
  (** [msg.GetMethod()], [msg.GetProtoMessage()] *)
  GetMethod : Message → string;
  GetProtoMessage : Message → ProtoMessage;
  (** [proto.Marshal]: the bytes and the error ([None] is [nil]) *)
  Marshal : ProtoMessage → list byte * option Err;
  (** [sha256.Sum256] *)
  Sum256 : list byte → list byte;
  (** [proto.Clone] *)
  Clone : ProtoMessage → ProtoMessage;
  (** [cfg.Nodes()], [cfg.Size()] *)
  Nodes : Configuration → list Node;
  Size : Configuration → Z;
}.

Section Interceptors.
Context `{HOST : Host}.

(** The pair of a [gorums.Message] pointer and an [error] a handler returns;
    a nil pointer and a nil error are [None]. *)
Definition Out : Type := option Message * option Err.

(** [gorums.Handler] *)
Definition Handler : Type := ServerCtx → Message → World → Out * World.

Inductive LogArg :=
| ArgErr (e : Err)
| ArgString (s : string)
| ArgInt (n : Z).

(** The two closures handed to [go]. *)
Inductive Goroutine :=
| GoBroadcast (cfg : Configuration) (method : string) (msg : Message)
| GoSelectiveBroadcast (cfg : Configuration) (method : string) (msg : Message).

Inductive Event :=
| EvNext (ctx : ServerCtx) (msg : Message)
| EvMarshal (p : ProtoMessage)
| EvSum256 (bs : list byte)
| EvLog (format : string) (args : list LogArg)
| EvShouldBroadcast (p : ProtoMessage)
| EvGo (g : Goroutine).

(** What a spawned goroutine does under a schedule of the goroutines it
    starts: it clones the payload and starts one goroutine per node of the
    configuration; the result is where those goroutines are and what they
    did. *)
Definition run_goroutine (RPCCall : Rpc Node ProtoMessage (option Message) Err)
    (g : Goroutine) (schedule : list nat)
  : list (Node * Status) * list (NetEvent Node ProtoMessage Err) :=
  match g with
  | GoBroadcast cfg method msg =>
      let msgCopy := Clone (GetProtoMessage msg) in
      run_schedule RPCCall broadcast_return msgCopy method schedule
        (spawn_all (Nodes cfg))
  | GoSelectiveBroadcast cfg method msg =>
      let msgCopy := Clone (GetProtoMessage msg) in
      run_schedule RPCCall selective_return msgCopy method schedule
        (spawn_all (Nodes cfg))
  end.

(** The state an invocation reads and writes: the map captured by the
    closure and the application behind [next]. *)
Record State := mkState {
  broadcastedHashes : gset string;
  world : World;
}.

(** *** A state and trace monad *)

Definition M (A : Type) : Type := State → A * State * list Event.

Definition ret {A} (a : A) : M A := λ s, (a, s, []).

Definition bind {A B} (m : M A) (k : A → M B) : M B := λ s,
  let '(a, s1, t1) := m s in
  let '(b, s2, t2) := k a s1 in
  (b, s2, t1 ++ t2).

Notation "'do' x <- m ; k" := (bind m (λ x, k))
  (at level 10, x name, m at level 100, k at level 200).
Notation "'do' ' p <- m ; k" := (bind m (λ x, match x with p => k end))
  (at level 10, p pattern, m at level 100, k at level 200).
Notation "m ;;; k" := (bind m (λ _, k))
  (at level 100, k at level 200, right associativity).

Definition emit (e : Event) : M unit := λ s, (tt, s, [e]).

(** [next(ctx, msg)] *)
Definition call (next : Handler) (ctx : ServerCtx) (msg : Message) : M Out :=
  λ s, let '(out, w) := next ctx msg (world s) in
       (out, mkState (broadcastedHashes s) w, [EvNext ctx msg]).

Definition proto_Marshal (p : ProtoMessage) : M (list byte * option Err) :=
  emit (EvMarshal p) ;;; ret (Marshal p).

Definition sha256_Sum256 (bs : list byte) : M (list byte) :=
  emit (EvSum256 bs) ;;; ret (Sum256 bs).

Definition log_Printf (format : string) (args : list LogArg) : M unit :=
  emit (EvLog format args).

Definition go (g : Goroutine) : M unit := emit (EvGo g).

(** The caller's predicate is a Go function; calling it is an event. *)
Definition call_pred (shouldBroadcast : ProtoMessage → bool)
    (p : ProtoMessage) : M bool :=
  emit (EvShouldBroadcast p) ;;; ret (shouldBroadcast p).

(** The section under the mutex, on the captured map. *)
Definition locked_checkAndMark (order : gset string → list string)
    (hashStr : string) : M bool := λ s,
  let '(m, alreadyBroadcasted) :=
    checkAndMark order hashStr (broadcastedHashes s) in
  (alreadyBroadcasted, mkState m (world s), []).

(** Go's [a || b]: [b] is evaluated only when [a] is false. *)
Definition orelse (a : bool) (b : M bool) : M bool :=
  if a then ret true else b.

(** An interceptor, given the order any map iteration of this invocation
    will follow. *)
Definition Interceptor : Type :=
  (gset string → list string) → ServerCtx → Message → Handler → M Out.

(** *** [NewBroadcastInterceptor] (the returned closure) *)

Definition NewBroadcastInterceptor (cfg : Configuration) (method : string)
  : Interceptor := λ order ctx msg next,
  if negb (String.eqb (GetMethod msg) method) then
    call next ctx msg
  else
    do '(msgBytes, err) <- proto_Marshal (GetProtoMessage msg);
    match err with
    | Some e =>
        log_Printf "BroadcastInterceptor: Failed to marshal message: %v"
          [ArgErr e] ;;;
        call next ctx msg
    | None =>
        do hash <- sha256_Sum256 msgBytes;
        let hashStr := hex (take 8 hash) in
        do alreadyBroadcasted <- locked_checkAndMark order hashStr;
        if alreadyBroadcasted then
          call next ctx msg
        else
          do '(resp, err) <- call next ctx msg;
          go (GoBroadcast cfg method msg) ;;;
          ret (resp, err)
    end.

(** The state of a closure just returned by [NewBroadcastInterceptor]:
    [broadcastedHashes := make(map[string]struct{})]. *)
Definition fresh (w : World) : State := mkState ∅ w.

(** *** [NewSelectiveBroadcastInterceptor] (the returned closure) *)

Definition NewSelectiveBroadcastInterceptor (cfg : Configuration)
    (method : string) (shouldBroadcast : ProtoMessage → bool)
  : Interceptor := λ order ctx msg next,
  do skip <- orelse (negb (String.eqb (GetMethod msg) method))
               (do b <- call_pred shouldBroadcast (GetProtoMessage msg);
                ret (negb b));
  if skip then
    call next ctx msg
  else
    log_Printf "SelectiveBroadcastInterceptor: Broadcasting %s to %d nodes"
      [ArgString method; ArgInt (Size cfg)] ;;;
    do '(resp, err) <- call next ctx msg;
    go (GoSelectiveBroadcast cfg method msg) ;;;
    ret (resp, err).

(** *** Observations on traces *)

(** The goroutines a trace spawns. *)
Fixpoint spawns (t : list Event) : list Goroutine :=
  match t with
  | [] => []
  | EvGo g :: t' => g :: spawns t'
  | _ :: t' => spawns t'
  end.

(** The invocations of [next] in a trace. *)
Fixpoint nexts (t : list Event) : list (ServerCtx * Message) :=
  match t with
  | [] => []
  | EvNext ctx msg :: t' => (ctx, msg) :: nexts t'
  | _ :: t' => nexts t'
  end.

(** Marshalling and hashing events: the fingerprinting work. *)
Definition is_fingerprinting (e : Event) : bool :=
  match e with
  | EvMarshal _ | EvSum256 _ => true
  | _ => false
  end.

(** Calls of the caller's predicate. *)
Definition is_pred_call (e : Event) : bool :=
  match e with
  | EvShouldBroadcast _ => true
  | _ => false
  end.

(** The fingerprint of a serialized payload: [fmt.Sprintf("%x", hash[:8])]. *)
Definition fingerprint (msgBytes : list byte) : string :=
  hex (take 8 (Sum256 msgBytes)).

(** The three components of a finished invocation. *)
Definition out_of {A} (r : A * State * list Event) : A := r.1.1.
Definition state_of {A} (r : A * State * list Event) : State := r.1.2.
Definition trace_of {A} (r : A * State * list Event) : list Event := r.2.

(** An invocation that ran [next] once on the application state, left the
    map [m] behind and produced the trace [t]. *)
Definition after_next (next : Handler) (ctx : ServerCtx) (msg : Message)
    (m : gset string) (s : State) (t : list Event) : Out * State * list Event :=
  ((next ctx msg (world s)).1, mkState m (next ctx msg (world s)).2, t).

(** *** Delivering a sequence of messages to one instance *)

Record Arrival := mkArrival {
  arr_order : gset string → list string;
  arr_ctx : ServerCtx;
  arr_msg : Message;
  arr_next : Handler;
}.

Fixpoint deliver (ic : Interceptor) (arrivals : list Arrival) (s : State)
  : list (Out * list Event) * State :=
  match arrivals with
  | [] => ([], s)
  | a :: rest =>
      let '(out, s1, t) :=
        ic (arr_order a) (arr_ctx a) (arr_msg a) (arr_next a) s in
      let '(rs, s2) := deliver ic rest s1 in
      ((out, t) :: rs, s2)
  end.

(** The fingerprint the interceptor computes for an arrival, and the
    arrivals that reach the critical section of an interceptor configured
    for [method]. *)
Definition arr_fp (a : Arrival) : string :=
  fingerprint (Marshal (GetProtoMessage (arr_msg a))).1.

Definition reaches_cache (method : string) (a : Arrival) : Prop :=
  GetMethod (arr_msg a) = method
  ∧ (Marshal (GetProtoMessage (arr_msg a))).2 = None.

(** The state after each invocation of a delivery, in order. *)
Fixpoint deliver_states (ic : Interceptor) (arrivals : list Arrival)
    (s : State) : list State :=
  match arrivals with
  | [] => []
  | a :: rest =>
      let s1 := state_of (ic (arr_order a) (arr_ctx a) (arr_msg a)
                            (arr_next a) s) in
      s1 :: deliver_states ic rest s1
  end.

(** The goroutines each invocation of a delivery spawned. *)
Definition spawned (rs : list (Out * list Event)) : list (list Goroutine) :=
  (λ r, spawns r.2) <$> rs.
End Interceptors.

(** ** A small host: the storage example

    Concrete collaborators, used to run the model on inputs.  A payload is a
    number written as two bytes; larger numbers do not serialize.  The digest
    is the identity, standing in for SHA-256 (the theorems are proved for an
    arbitrary digest; only the runs below use this one). *)

Module Demo.
Definition encode2 (n : N) : list byte :=
  [default x00 (Byte.of_N (n / 256)); default x00 (Byte.of_N (n mod 256))].

#[export] Instance host : Host := {|
  ServerCtx := unit;
  Message := string * N;
  ProtoMessage := N;
  Node := string;
  Err := string;
  Configuration := list string;
  World := list N;
  GetMethod := fst;
  GetProtoMessage := snd;
  Marshal := λ n, if (n <? 65536)%N then (encode2 n, None)
                  else ([], Some "proto: value out of range");
  Sum256 := λ bs, bs;
  Clone := λ p, p;
  Nodes := λ cfg, cfg;
  Size := λ cfg, Z.of_nat (length cfg);
|}.

Definition method : string := "proto.Storage.WriteRPC".
Definition peers : list string :=
  ["127.0.0.1:50001"; "127.0.0.1:50002"; "127.0.0.1:50003"].

(** The storage handler appends the value written and echoes the request. *)
Definition store : Handler := λ _ msg w, ((Some msg, None), msg.2 :: w).
(** A handler that fails. *)
Definition failing : Handler :=
  λ _ _ w, ((None, Some "storage: write failed"), w).

(** A write of the value 7, the message of the late write, a message of
    another method, and one whose payload does not serialize. *)
Definition seven : Message := (method, 7%N).
Definition late_msg : Message := (method, 10000%N).
Definition other : Message := ("proto.Storage.ReadRPC", 7%N).
Definition oversized : Message := (method, 70000%N).

(** A write arriving when the runtime iterates in the order of [elements]. *)
Definition write (n : N) : Arrival := mkArrival elements tt (method, n) store.

(** Reading a hexadecimal string back. *)
Definition hex_value (c : ascii) : N :=
  match c with
  | "0" => 0 | "1" => 1 | "2" => 2 | "3" => 3 | "4" => 4 | "5" => 5
  | "6" => 6 | "7" => 7 | "8" => 8 | "9" => 9 | "a" => 10 | "b" => 11
  | "c" => 12 | "d" => 13 | "e" => 14 | "f" => 15 | _ => 0
  end%char%N.

Fixpoint unhex (acc : N) (s : string) : N :=
  match s with
  | EmptyString => acc
  | String c s' => unhex (16 * acc + hex_value c) s'
  end.

(** The first [k] payloads and their fingerprints. *)
Definition payloads (k : Z) : list N := N.of_nat <$> seq 0 (Z.to_nat k).
Definition fp (n : N) : string := fingerprint (encode2 n).

(** Ten thousand distinct writes fill the cache to its limit. *)
Definition warmup : list Arrival := write <$> payloads cacheLimit.


(** The predicate that asks for every message to be broadcast. *)
Definition always : N → bool := λ _, true.

(** Peers of which the second never answers and the others refuse the
    connection, and a schedule that lets the goroutine of the second run
    before the third and the first last. *)
Definition flaky : Rpc string N (option (string * N)) string :=
  λ n _ _, if String.eqb n "127.0.0.1:50002" then None
           else Some (None, Some "connection refused").
Definition interleaved : list nat := [1; 1; 2; 1; 2; 0; 0]%nat.

(** The interceptor of a server that replicates writes to its peers, and an
    instance of it whose cache is full. *)
Definition ic : Interceptor := NewBroadcastInterceptor peers method.
Definition full : State :=
  mkState (list_to_set (fp <$> payloads cacheLimit)) [].
End Demo.

(** ** The other stages of the package

    [LoggingInterceptor], [LoggingSimpleInterceptor], [DelayedInterceptor],
    [NoFooAllowedInterceptor] and [MetadataInterceptor] wrap whatever comes
    next in the chain, which may itself be an interceptor.  Their [next] is
    therefore a computation on the same state, with a trace that keeps the
    events of the inner stages apart from their own log lines and sleeps. *)

(** [int64] arithmetic, as [time.Duration] has it. *)
Definition wrap64 (z : Z) : Z := (z + 2 ^ 63) mod 2 ^ 64 - 2 ^ 63.

(** [time.Millisecond], in nanoseconds. *)
Definition Millisecond : Z := 1000000.

(** What these stages use from outside the package, besides [Host]. *)
Class Middleware `{HOST : Host} := {
  (** the type parameter [T] of [NoFooAllowedInterceptor] *)
  Req : Type;
  (** [gorums.AsProto[proto.Message]]; [None] is the nil interface *)
  AsProto : option Message → option ProtoMessage;
  (** the type assertion [.(T)] and [req.GetKey()] *)
  asT : option ProtoMessage → option Req;
  GetKey : Req → string;
  (** [fmt.Errorf] on a format without verbs *)
  Errorf : string → Err;
  (** [in.SetEntry] *)
  SetEntry : Message → list (string * string) → Message;
  (** [peer.FromContext(ctx)] ([None] when [ok] is false) and
      [peer.Addr.String()] ([None] when [peer.Addr] is nil) *)
  Peer : Type;
  peer_FromContext : ServerCtx → option Peer;
  peer_Addr : Peer → option string;
  (** [n.Address()] *)
  Address : Node → string;
}.

Section Stages.
Context `{MW : Middleware}.

Inductive MwArg :=
| MwString (s : string)
| MwProto (p : option ProtoMessage)
| MwErr (e : option Err)
| MwDuration (d : Z)
| MwPeer (p : Peer).

Inductive MwEvent :=
| MwInner (e : Event)
| MwLog (format : string) (args : list MwArg)
| MwSleep (d : Z).

Definition W (A : Type) : Type := State → A * State * list MwEvent.

Definition wret {A} (a : A) : W A := λ s, (a, s, []).

Definition wbind {A B} (m : W A) (k : A → W B) : W B := λ s,
  let '(a, s1, t1) := m s in
  let '(b, s2, t2) := k a s1 in
  (b, s2, t1 ++ t2).

Notation "'do' ' p <- m ; k" := (wbind m (λ x, match x with p => k end))
  (at level 10, p pattern, m at level 100, k at level 200).
Notation "m ;;; k" := (wbind m (λ _, k))
  (at level 100, k at level 200, right associativity).

Definition wlog (format : string) (args : list MwArg) : W unit :=
  λ s, (tt, s, [MwLog format args]).

(** [time.Sleep(d)] *)
Definition sleep (d : Z) : W unit := λ s, (tt, s, [MwSleep d]).

(** A stage of the earlier kind, as the last stage of a chain. *)
Definition lift {A} (m : M A) : W A := λ s,
  let '(a, s1, t) := m s in (a, s1, MwInner <$> t).

(** The events of the inner stages in a trace. *)
Fixpoint inner (t : list MwEvent) : list Event :=
  match t with
  | [] => []
  | MwInner e :: t' => e :: inner t'
  | _ :: t' => inner t'
  end.

(** The sleeps of a trace. *)
Fixpoint sleeps (t : list MwEvent) : list Z :=
  match t with
  | [] => []
  | MwSleep d :: t' => d :: sleeps t'
  | _ :: t' => sleeps t'
  end.

(** The rest of a chain, and a stage wrapping it. *)
Definition MwHandler : Type := ServerCtx → Message → W Out.
Definition MwInterceptor : Type := ServerCtx → Message → MwHandler → W Out.


Definition LoggingSimpleInterceptor : MwInterceptor := λ ctx in_ next,
  let req := AsProto (Some in_) in
  wlog "LoggingSimpleInterceptor(incoming): Method=%s, Message=%v)"
    [MwString (GetMethod in_); MwProto req] ;;;
  do '(out, err) <- next ctx in_;
  let resp := AsProto out in
  wlog "LoggingSimpleInterceptor(outgoing): Method=%s, Err=%v, Message=%v"
    [MwString (GetMethod in_); MwErr err; MwProto resp] ;;;
  wret (out, err).

(** The address [DelayedInterceptor] reads from the context, when there is
    a peer and the peer has one. *)
Definition sender_address (ctx : ServerCtx) : option string :=
  match peer_FromContext ctx with
  | Some peer => peer_Addr peer
  | None => None
  end.

(** [time.Duration(len(node)) * 100 * time.Millisecond] *)
Definition delay_of (node : string) : Z :=
  wrap64 (wrap64 (Z.of_nat (String.length node) * 100) * Millisecond).

Definition DelayedInterceptor : MwInterceptor := λ ctx in_ next,
  let delay := 0 * Millisecond in
  do '(delay) <-
    match peer_FromContext ctx with
    | Some peer =>
        match peer_Addr peer with
        | Some node =>
            wlog "DelayedInterceptor: Received message from node %v"
              [MwPeer peer] ;;;
            let delay := delay_of node in
            wlog ("DelayedInterceptor: Delaying message processing for %s "
                  +:+ "based on node address length") [MwDuration delay] ;;;
            wret delay
        | None =>
            wlog ("DelayedInterceptor: No peer address found in context, "
                  +:+ "using default delay of 0ms") [] ;;;
            wret delay
        end
    | None =>
        wlog ("DelayedInterceptor: No peer address found in context, "
              +:+ "using default delay of 0ms") [] ;;;
        wret delay
    end;
  sleep delay ;;;
  do '(out, err) <- next ctx in_;
  wlog "DelayedInterceptor: Finished processing message after %s"
    [MwDuration delay] ;;;
  wret (out, err).

Definition NoFooAllowedInterceptor : MwInterceptor := λ ctx in_ next,
  match asT (AsProto (Some in_)) with
  | Some req =>
      wlog "NoFooAllowedInterceptor: Received request for key '%s'"
        [MwString (GetKey req)] ;;;
      if String.eqb (GetKey req) "foo" then
        wlog "NoFooAllowedInterceptor: Rejecting request for key 'foo'" [] ;;;
        wret (None, Some (Errorf "requests for key 'foo' are not allowed"))
      else next ctx in_
  | None => next ctx in_
  end.

Definition MetadataInterceptor : MwInterceptor := λ ctx in_ next,
  wlog ("MetadataInterceptor: Adding custom metadata to "
        +:+ "message(customKey=customValue)") [] ;;;
  let entry := ("customKey", "customValue") in
  let in_ := SetEntry in_ [entry] in
  do '(out, err) <- next ctx in_;
  wlog "MetadataInterceptor: Finished processing message with custom metadata"
    [] ;;;
  wret (out, err).

(** The three components of a finished invocation of a chain. *)
Definition wout {A} (r : A * State * list MwEvent) : A := r.1.1.
Definition wstate {A} (r : A * State * list MwEvent) : State := r.1.2.
Definition wtrace {A} (r : A * State * list MwEvent) : list MwEvent := r.2.


(** Stages in their order of registration around a last handler: each one's
    [next] is the rest of the chain (the contract of
    [gorums.WithInterceptors]). *)
Definition chain (stages : list MwInterceptor) (last : MwHandler) : MwHandler :=
  foldr (λ ic next ctx msg, ic ctx msg next) last stages.

(** The chain the guide's [startServerWithBroadcast] registers, in front of
    the service handler. *)
Definition storage_chain (cfg : Configuration) (method : string)
    (order : gset string → list string) (handler : Handler) : MwHandler :=
  chain [LoggingSimpleInterceptor; NoFooAllowedInterceptor; MetadataInterceptor]
    (λ ctx msg, lift (NewBroadcastInterceptor cfg method order ctx msg handler)).

(** The handlers of a delivery called directly, one after the other, with
    no interceptor in front. *)
Fixpoint run_handlers (arrivals : list Arrival) (w : World)
  : list Out * World :=
  match arrivals with
  | [] => ([], w)
  | a :: rest =>
      let '(out, w1) := arr_next a (arr_ctx a) (arr_msg a) w in
      let '(outs, w2) := run_handlers rest w1 in
      (out :: outs, w2)
  end.

(** What deduplication by fingerprint asks of a delivery that reaches the
    critical section: a broadcast for each fingerprint not in [seen] and not
    met earlier in the delivery, and none otherwise. *)
Fixpoint first_sightings (cfg : Configuration) (method : string)
    (seen : gset string) (arrivals : list Arrival) : list (list Goroutine) :=
  match arrivals with
  | [] => []
  | a :: rest =>
      (if bool_decide (arr_fp a ∈ seen) then []
       else [GoBroadcast cfg method (arr_msg a)])
      :: first_sightings cfg method ({[ arr_fp a ]} ∪ seen) rest
  end.

End Stages.

(** ** Reading a fingerprint back *)

(** The position of a character in a string, counted from [i]. *)
Fixpoint index_from (i : N) (c : ascii) (digits : string) : option N :=
  match digits with
  | EmptyString => None
  | String d digits' =>
      if Ascii.eqb c d then Some i else index_from (i + 1) c digits'
  end.

(** The value of a lower-case hexadecimal digit. *)
Definition unhex_digit (c : ascii) : option N :=
  index_from 0 c "0123456789abcdef".

(** The bytes a string of hexadecimal digit pairs stands for. *)
Fixpoint unhex_bytes (s : string) : option (list byte) :=
  match s with
  | EmptyString => Some []
  | String hi (String lo s') =>
      match unhex_digit hi, unhex_digit lo, unhex_bytes s' with
      | Some h, Some l, Some bs =>
          match Byte.of_N (16 * h + l) with
          | Some b => Some (b :: bs)
          | None => None
          end
      | _, _, _ => None
      end
  | String _ EmptyString => None
  end.

(** ** The broadcast set-up of [main] (examples/storage/main.go) *)

(** [fmt.Sprintf("127.0.0.1:%d", 50000+i)] for [i := range n]. *)
Definition listeners (n : nat) : list string :=
  (λ i, "127.0.0.1:" +:+ pretty (50000 + N.of_nat i)%N) <$> seq 0 n.

(** The inner loop
<<
    otherNodes := make([]string, 0, len(listeners)-1)
    for j, otherAddr := range listeners {
        if i != j { otherNodes = append(otherNodes, otherAddr) }
    }
>>
    from index [j] on, [otherNodes] being what was appended so far. *)
Fixpoint otherNodes_from (i j : nat) (listeners otherNodes : list string)
  : list string :=
  match listeners with
  | [] => otherNodes
  | otherAddr :: listeners' =>
      otherNodes_from i (S j) listeners'
        (if decide (i ≠ j) then otherNodes ++ [otherAddr] else otherNodes)
  end.

Definition otherNodes (i : nat) (listeners : list string) : list string :=
  otherNodes_from i 0 listeners [].


(** ** A second host: a storage cluster

    Messages that carry a key, a value and metadata entries, for running the
    stages above. *)

Module Cluster.
Record Envelope := mkEnvelope {
  env_method : string;
  env_req : string * string;
  env_entries : list (string * string);
}.

#[export] Instance host : Host := {|
  ServerCtx := option string;
  Message := Envelope;
  ProtoMessage := string * string;
  Node := string;
  Err := string;
  Configuration := list string;
  World := list (string * string);
  GetMethod := env_method;
  GetProtoMessage := env_req;
  Marshal := λ p, (String.list_byte_of_string (p.1 +:+ "=" +:+ p.2), None);
  Sum256 := λ bs, bs;
  Clone := λ p, p;
  Nodes := λ cfg, cfg;
  Size := λ cfg, Z.of_nat (length cfg);
|}.

#[export] Instance middleware : Middleware := {|
  Req := string * string;
  AsProto := fmap env_req;
  asT := λ p, p;
  GetKey := fst;
  Errorf := λ msg, msg;
  SetEntry := λ m es, mkEnvelope (env_method m) (env_req m) es;
  Peer := string;
  peer_FromContext := λ ctx, ctx;
  peer_Addr := Some;
  Address := λ n, n;
|}.

Definition method : string := "proto.Storage.WriteRPC".

(** The storage handler appends the pair written and echoes the request. *)
Definition store : Handler := λ _ msg w, ((Some msg, None), env_req msg :: w).

(** A write as a client sends it. *)
Definition write (key value : string) : Envelope :=
  mkEnvelope method (key, value) [("client", "c1")].

(** The context of a call from the peer at 127.0.0.1:40000. *)
Definition from_peer : option string := Some "127.0.0.1:40000".

(** The rest of a chain that is just the storage handler. *)
Definition serve : MwHandler := λ ctx msg, lift (call store ctx msg).

(** The same write as the metadata stage hands it on, and as an arrival at
    the broadcast interceptor. *)
Definition tagged (key value : string) : Envelope :=
  mkEnvelope method (key, value) [("customKey", "customValue")].
Definition arrive (key value : string) : Arrival :=
  mkArrival elements None (write key value) store.

(** Peers none of which ever answers. *)
Definition silent : Rpc string (string * string) (option Envelope) string :=
  λ _ _ _, None.

(** Server 1 of the four that [main] starts. *)
Definition server1 : string := "127.0.0.1:50001".
Definition peers1 : list string := otherNodes 1 (listeners 4).
End Cluster.

(** * Properties of the cache *)

#[local] Set Warnings "-clear-no-such-hyp".

Section CacheFacts.
Implicit Types (m : gset string) (h : string) (keys : list string).

(** The loop deletes the keys it is handed until its counter reaches 5000. *)
Lemma range_delete_take keys : ∀ count m,
  count < evictCount →
  range_delete keys count m
  = m ∖ list_to_set (take (Z.to_nat (evictCount - count)) keys).
Proof.
  induction keys as [|h keys IH]; intros count m Hc; simpl.
  - rewrite take_nil. set_solver.
  - replace (Z.to_nat (evictCount - count))
      with (S (Z.to_nat (evictCount - (count + 1)))) by lia.
    simpl. case_bool_decide as Hstop.
    + replace (Z.to_nat (evictCount - (count + 1))) with 0%nat by lia.
      rewrite take_0. set_solver.
    + rewrite IH by lia. set_solver.
Qed.

(** Deleting the first [k] keys of an iteration order removes [k] entries. *)
Lemma size_evicted m keys (k : nat) :
  keys ≡ₚ elements m → (k ≤ size m)%nat →
  size (m ∖ list_to_set (take k keys)) = (size m - k)%nat.
Proof.
  intros Hp Hk.
  assert (NoDup keys) as Hnd by (rewrite Hp; apply NoDup_elements).
  assert (length keys = size m) as Hlen by (by rewrite Hp).
  rewrite size_difference.
  - rewrite size_list_to_set.
    + rewrite length_take. lia.
    + apply (sublist_NoDup _ keys); [done | apply sublist_take].
  - intros x Hx. apply elem_of_list_to_set in Hx.
    apply elem_of_elements. rewrite <- Hp.
    eapply elem_of_sublist; [exact Hx | apply sublist_take].
Qed.

(** The three cases of the critical section: the key is cached; it is new
    and fits; it is new and its insertion overflows the cache. *)
Lemma checkAndMark_seen order h m :
  h ∈ m → checkAndMark order h m = (m, true).
Proof.
  intros Hin. unfold checkAndMark. by rewrite bool_decide_eq_true_2.
Qed.

Lemma checkAndMark_room order h m :
  h ∉ m → Z.of_nat (size m) < cacheLimit →
  checkAndMark order h m = ({[ h ]} ∪ m, false).
Proof.
  intros Hnew Hsz. unfold checkAndMark.
  rewrite bool_decide_eq_false_2 by done. simpl.
  rewrite bool_decide_eq_false_2; [done|].
  rewrite size_union by set_solver. rewrite size_singleton. lia.
Qed.

Lemma checkAndMark_full order h m :
  h ∉ m → Z.of_nat (size m) >= cacheLimit →
  checkAndMark order h m
  = (({[ h ]} ∪ m)
       ∖ list_to_set (take (Z.to_nat evictCount) (order ({[ h ]} ∪ m))),
     false).
Proof.
  intros Hnew Hsz. unfold checkAndMark.
  rewrite bool_decide_eq_false_2 by done. simpl.
  rewrite bool_decide_eq_true_2.
  - rewrite range_delete_take by (unfold evictCount; lia).
    by rewrite Z.sub_0_r.
  - rewrite size_union by set_solver. rewrite size_singleton. lia.
Qed.

(** The flag is the membership test made before anything is written. *)
Lemma checkAndMark_flag order h m :
  (checkAndMark order h m).2 = bool_decide (h ∈ m).
Proof.
  unfold checkAndMark. destruct (bool_decide (h ∈ m)); simpl; [done|].
  by case_bool_decide.
Qed.

(** One pass over a cache that an insertion took from the limit to one
    entry more leaves [10001 - 5000] entries. *)
Lemma checkAndMark_overflow_size order h m :
  RangeOrder order → h ∉ m → Z.of_nat (size m) = cacheLimit →
  Z.of_nat (size (checkAndMark order h m).1) = cacheLimit + 1 - evictCount.
Proof.
  intros Ho Hnew Hsz. rewrite checkAndMark_full by (done || lia). simpl.
  assert (size ({[ h ]} ∪ m) = S (size m)) as Hs.
  { rewrite size_union by set_solver. by rewrite size_singleton. }
  rewrite size_evicted; [|apply Ho|].
  - rewrite Hs. unfold cacheLimit, evictCount in *. lia.
  - rewrite Hs. unfold cacheLimit, evictCount in *. lia.
Qed.

(** The bound is an invariant of the critical section. *)
Lemma checkAndMark_bounded order h m :
  RangeOrder order → Z.of_nat (size m) ≤ cacheLimit →
  Z.of_nat (size (checkAndMark order h m).1) ≤ cacheLimit.
Proof.
  intros Ho Hsz. destruct (decide (h ∈ m)) as [Hin|Hnew].
  - by rewrite checkAndMark_seen.
  - destruct (decide (Z.of_nat (size m) < cacheLimit)) as [Hlt|Hge].
    + rewrite checkAndMark_room by done. simpl.
      rewrite size_union by set_solver. rewrite size_singleton. lia.
    + rewrite checkAndMark_overflow_size by (done || lia).
      unfold cacheLimit, evictCount. lia.
Qed.

(** Whatever the pass removes was in the cache, the new entry included. *)
Lemma checkAndMark_subseteq order h m :
  (checkAndMark order h m).1 ⊆ {[ h ]} ∪ m.
Proof.
  unfold checkAndMark. destruct (bool_decide (h ∈ m)); simpl; [set_solver|].
  case_bool_decide; simpl; [|done].
  rewrite range_delete_take by (unfold evictCount; lia). set_solver.
Qed.

(** When a new key is still cached at the end of the critical section. *)
Lemma checkAndMark_survives order h m :
  h ∉ m → h ∈ (checkAndMark order h m).1 ↔ survives_insertion order h m.
Proof.
  intros Hnew. unfold survives_insertion.
  destruct (decide (Z.of_nat (size m) < cacheLimit)) as [Hroom|Hfull].
  - rewrite checkAndMark_room by done. cbn [fst]. split; [by left|].
    intros _. set_solver.
  - rewrite checkAndMark_full by (done || lia). cbn [fst].
    rewrite elem_of_difference, elem_of_list_to_set. split.
    + intros [_ Hout]. by right.
    + intros [Hroom|Hout]; [lia|]. split; [set_solver | done].
Qed.

Lemma newest_first_RangeOrder h : RangeOrder (newest_first h).
Proof.
  intros m. unfold newest_first. case_decide as Hin; [|done].
  rewrite <- elements_union_singleton by set_solver.
  replace ({[ h ]} ∪ m ∖ {[ h ]}) with m; [done|].
  apply set_eq. intros x. destruct (decide (x = h)); set_solver.
Qed.
End CacheFacts.

(** * The three paths of [NewBroadcastInterceptor] *)

Section InterceptorFacts.
Context `{HOST : Host}.
Implicit Types (cfg : Configuration) (method : string) (s : State)
  (msg : Message) (next : Handler) (order : gset string → list string).

(** A direct call of [next]. *)
Lemma call_eq next ctx msg s :
  call next ctx msg s
  = after_next next ctx msg (broadcastedHashes s) s [EvNext ctx msg].
Proof.
  unfold call, after_next. by destruct (next ctx msg (world s)).
Qed.

(** Path 1: another method. *)
Lemma intercept_other cfg method order ctx msg next s :
  GetMethod msg ≠ method →
  NewBroadcastInterceptor cfg method order ctx msg next s
  = call next ctx msg s.
Proof.
  intros Hm. unfold NewBroadcastInterceptor.
  apply String.eqb_neq in Hm. by rewrite Hm.
Qed.

(** Path 2: the payload does not serialize. *)
Lemma intercept_marshal_error cfg method order ctx msg next s bs e :
  GetMethod msg = method →
  Marshal (GetProtoMessage msg) = (bs, Some e) →
  NewBroadcastInterceptor cfg method order ctx msg next s
  = after_next next ctx msg (broadcastedHashes s) s
      [EvMarshal (GetProtoMessage msg);
       EvLog "BroadcastInterceptor: Failed to marshal message: %v" [ArgErr e];
       EvNext ctx msg].
Proof.
  intros Hm Hb. unfold NewBroadcastInterceptor.
  rewrite Hm, String.eqb_refl. simpl.
  unfold bind, proto_Marshal, log_Printf, emit, ret, bind, call, after_next.
  rewrite Hb. simpl. by destruct (next ctx msg (world s)).
Qed.

(** Path 3: the payload serializes; the critical section decides. *)
Lemma intercept_marshalled cfg method order ctx msg next s bs :
  GetMethod msg = method →
  Marshal (GetProtoMessage msg) = (bs, None) →
  NewBroadcastInterceptor cfg method order ctx msg next s
  = after_next next ctx msg
      (checkAndMark order (fingerprint bs) (broadcastedHashes s)).1 s
      ([EvMarshal (GetProtoMessage msg); EvSum256 bs; EvNext ctx msg]
       ++ if (checkAndMark order (fingerprint bs) (broadcastedHashes s)).2
          then [] else [EvGo (GoBroadcast cfg method msg)]).
Proof.
  intros Hm Hb. unfold NewBroadcastInterceptor.
  rewrite Hm, String.eqb_refl. simpl.
  unfold bind, proto_Marshal, sha256_Sum256, locked_checkAndMark, go, emit,
    ret, bind, call, after_next, fingerprint.
  rewrite Hb. simpl.
  destruct (checkAndMark _ _ _) as [m [|]]; simpl;
    by destruct (next ctx msg (world s)) as [[resp err] w].
Qed.
End InterceptorFacts.

(** * The claims about single invocations *)

Section Invocation.
Context `{HOST : Host}.
Implicit Types (cfg : Configuration) (method : string) (s : State)
  (msg : Message) (next : Handler) (order : gset string → list string).

(** C4.  A message whose method is not the configured one is handled exactly
    as by calling [next] directly: the whole result (response, error, state,
    trace) is that of the call; in particular the trace contains no
    marshalling or hashing, the map is the one before, and no goroutine is
    spawned. *)
Theorem broadcast_filter_miss_is_next cfg method order ctx msg next s :
  GetMethod msg ≠ method →
  NewBroadcastInterceptor cfg method order ctx msg next s = call next ctx msg s
  ∧ filter is_fingerprinting
      (trace_of (NewBroadcastInterceptor cfg method order ctx msg next s)) = []
  ∧ broadcastedHashes
      (state_of (NewBroadcastInterceptor cfg method order ctx msg next s))
    = broadcastedHashes s
  ∧ spawns (trace_of (NewBroadcastInterceptor cfg method order ctx msg next s))
    = [].
Proof.
  intros Hm. rewrite intercept_other by done. rewrite call_eq.
  by repeat split.
Qed.

(** C2.  On a message of the configured method the interceptor calls [next]
    exactly once, on that message, whatever the serialization and the cache
    lookup give, and returns the response and the error of that call; the
    application state is the one the call left. *)
Theorem broadcast_calls_next_once cfg method order ctx msg next s :
  GetMethod msg = method →
  nexts (trace_of (NewBroadcastInterceptor cfg method order ctx msg next s))
  = [(ctx, msg)]
  ∧ out_of (NewBroadcastInterceptor cfg method order ctx msg next s)
    = (next ctx msg (world s)).1
  ∧ world (state_of (NewBroadcastInterceptor cfg method order ctx msg next s))
    = (next ctx msg (world s)).2.
Proof.
  intros Hm.
  destruct (Marshal (GetProtoMessage msg)) as [bs [e|]] eqn:Hb.
  - by rewrite (intercept_marshal_error _ _ _ _ _ _ _ bs e).
  - rewrite (intercept_marshalled _ _ _ _ _ _ _ bs) by done.
    unfold trace_of, out_of, state_of, after_next. simpl.
    by destruct (checkAndMark _ _ _).2.
Qed.

(** C6.  When the payload of a matching message does not serialize, the
    interceptor logs the error, calls [next] and returns its result; the map
    is untouched, nothing is hashed and no goroutine is spawned.  The
    function is total, so there is no crash to speak of. *)
Theorem broadcast_marshal_error_passes_through
    cfg method order ctx msg next s bs e :
  GetMethod msg = method →
  Marshal (GetProtoMessage msg) = (bs, Some e) →
  trace_of (NewBroadcastInterceptor cfg method order ctx msg next s)
  = [EvMarshal (GetProtoMessage msg);
     EvLog "BroadcastInterceptor: Failed to marshal message: %v" [ArgErr e];
     EvNext ctx msg]
  ∧ out_of (NewBroadcastInterceptor cfg method order ctx msg next s)
    = (next ctx msg (world s)).1
  ∧ world (state_of (NewBroadcastInterceptor cfg method order ctx msg next s))
    = (next ctx msg (world s)).2
  ∧ broadcastedHashes
      (state_of (NewBroadcastInterceptor cfg method order ctx msg next s))
    = broadcastedHashes s
  ∧ spawns (trace_of (NewBroadcastInterceptor cfg method order ctx msg next s))
    = [].
Proof.
  intros Hm Hb. by rewrite (intercept_marshal_error _ _ _ _ _ _ _ bs e).
Qed.

(** C9, amended.  On a first sighting the goroutine is spawned after the
    call of [next] and whatever that call returned, an error included: the
    trace is the same four events for every handler.  The map afterwards is
    the one the critical section left, so nothing the handler returns
    unmarks the fingerprint: it is in the map exactly when it survived its
    own insertion, which it does whenever the cache held fewer than 10000
    entries. *)
Theorem broadcast_spawn_ignores_local_outcome
    cfg method order ctx msg next s bs :
  GetMethod msg = method →
  Marshal (GetProtoMessage msg) = (bs, None) →
  fingerprint bs ∉ broadcastedHashes s →
  trace_of (NewBroadcastInterceptor cfg method order ctx msg next s)
  = [EvMarshal (GetProtoMessage msg); EvSum256 bs; EvNext ctx msg;
     EvGo (GoBroadcast cfg method msg)]
  ∧ out_of (NewBroadcastInterceptor cfg method order ctx msg next s)
    = (next ctx msg (world s)).1
  ∧ broadcastedHashes
      (state_of (NewBroadcastInterceptor cfg method order ctx msg next s))
    = (checkAndMark order (fingerprint bs) (broadcastedHashes s)).1
  ∧ (fingerprint bs ∈ broadcastedHashes
       (state_of (NewBroadcastInterceptor cfg method order ctx msg next s))
     ↔ survives_insertion order (fingerprint bs) (broadcastedHashes s)).
Proof.
  intros Hm Hb Hnew.
  rewrite (intercept_marshalled _ _ _ _ _ _ _ bs) by done.
  unfold trace_of, out_of, state_of, after_next.
  cbn [fst snd broadcastedHashes].
  rewrite checkAndMark_flag, bool_decide_eq_false_2 by done.
  split; [done|]. split; [done|]. split; [done|].
  by apply checkAndMark_survives.
Qed.

(** C10.  In the selective variant a message of another method goes to
    [next] as by a direct call, and the predicate is not called. *)
Theorem selective_other_method_skips_predicate
    cfg method shouldBroadcast order ctx msg next s :
  GetMethod msg ≠ method →
  NewSelectiveBroadcastInterceptor cfg method shouldBroadcast order ctx msg
    next s = call next ctx msg s
  ∧ filter is_pred_call
      (trace_of (NewSelectiveBroadcastInterceptor cfg method shouldBroadcast
                   order ctx msg next s)) = [].
Proof.
  intros Hm. apply String.eqb_neq in Hm.
  assert (NewSelectiveBroadcastInterceptor cfg method shouldBroadcast order
            ctx msg next s = call next ctx msg s) as ->.
  { unfold NewSelectiveBroadcastInterceptor, orelse. rewrite Hm. simpl.
    unfold bind, ret. by destruct (call next ctx msg s) as [[o s'] t]. }
  split; [done|]. by rewrite call_eq.
Qed.

(** The selective variant, path by path. *)
Lemma selective_paths cfg method shouldBroadcast order ctx msg next s :
  NewSelectiveBroadcastInterceptor cfg method shouldBroadcast order ctx msg
    next s
  = after_next next ctx msg (broadcastedHashes s) s
      (if negb (String.eqb (GetMethod msg) method) then [EvNext ctx msg]
       else if shouldBroadcast (GetProtoMessage msg) then
         [EvShouldBroadcast (GetProtoMessage msg);
          EvLog "SelectiveBroadcastInterceptor: Broadcasting %s to %d nodes"
            [ArgString method; ArgInt (Size cfg)];
          EvNext ctx msg;
          EvGo (GoSelectiveBroadcast cfg method msg)]
       else [EvShouldBroadcast (GetProtoMessage msg); EvNext ctx msg]).
Proof.
  unfold NewSelectiveBroadcastInterceptor, orelse, after_next.
  destruct (String.eqb (GetMethod msg) method); simpl;
    unfold bind, ret, call_pred, log_Printf, go, emit, bind, ret, call;
    simpl.
  - destruct (shouldBroadcast (GetProtoMessage msg)); simpl;
      by destruct (next ctx msg (world s)) as [[resp err] w].
  - by destruct (next ctx msg (world s)) as [[resp err] w].
Qed.

(** C5, amended.  The selective variant spawns the broadcast exactly when
    the method is the configured one and the predicate holds of the payload;
    it then spawns one goroutine, for this message. *)
Theorem selective_spawns_iff_method_and_predicate
    cfg method shouldBroadcast order ctx msg next s :
  spawns (trace_of (NewSelectiveBroadcastInterceptor cfg method
                      shouldBroadcast order ctx msg next s))
  = if bool_decide (GetMethod msg = method)
         && shouldBroadcast (GetProtoMessage msg)
    then [GoSelectiveBroadcast cfg method msg] else [].
Proof.
  rewrite selective_paths. unfold trace_of, after_next. simpl.
  case_bool_decide as Hm.
  - rewrite Hm, String.eqb_refl. simpl.
    by destruct (shouldBroadcast (GetProtoMessage msg)).
  - apply String.eqb_neq in Hm. by rewrite Hm.
Qed.
End Invocation.

(** * The fan-out *)

Section PoolFacts.
Context {Node ProtoMessage Reply Err : Type}.
Implicit Types (pool : list (Node * Status))
  (RPCCall : Rpc Node ProtoMessage Reply Err)
  (on_return : Node → Reply * option Err → list (NetEvent Node ProtoMessage Err))
  (msgCopy : ProtoMessage) (method : string) (schedule : list nat).

Lemma called_app (t1 t2 : list (NetEvent Node ProtoMessage Err)) :
  called (t1 ++ t2) = called t1 ++ called t2.
Proof. induction t1 as [|[] t1 IH]; cbn; by rewrite ?IH. Qed.

Lemma pending_spawn_all (nodes : list Node) :
  pending (spawn_all nodes) = nodes.
Proof.
  unfold spawn_all. induction nodes as [|n nodes IH]; [done|].
  rewrite fmap_cons. cbn [pending]. by rewrite IH.
Qed.

Lemma length_spawn_all (nodes : list Node) :
  length (spawn_all nodes) = length nodes.
Proof. unfold spawn_all. by rewrite length_fmap. Qed.

Lemma lookup_spawn_all (nodes : list Node) (i : nat) (n : Node) :
  nodes !! i = Some n → spawn_all nodes !! i = Some (n, Spawned).
Proof. intros Hi. unfold spawn_all. by rewrite list_lookup_fmap, Hi. Qed.

(** A goroutine that issues its call leaves the pending ones. *)
Lemma pending_insert_spawned pool : ∀ i n st,
  pool !! i = Some (n, Spawned) → st ≠ Spawned →
  n :: pending (<[i := (n, st)]> pool) ≡ₚ pending pool.
Proof.
  induction pool as [|[m stm] pool IH]; intros [|i] n st Hi Hst;
    simplify_eq/=.
  - by destruct st.
  - destruct stm; cbn; rewrite <- ?(IH i n st Hi Hst); [|done..].
    apply perm_swap.
Qed.

(** A goroutine that moves on after its call does not come back. *)
Lemma pending_insert_started pool : ∀ i n st st',
  pool !! i = Some (n, st) → st ≠ Spawned → st' ≠ Spawned →
  pending (<[i := (n, st')]> pool) = pending pool.
Proof.
  induction pool as [|[m stm] pool IH]; intros [|i] n st st' Hi Hst Hst';
    simplify_eq/=.
  - by destruct st, st'.
  - by rewrite (IH i n st st' Hi Hst Hst').
Qed.

(** The step of one goroutine, case by case. *)
Lemma pool_step_cases RPCCall on_return msgCopy method i pool :
  (pool !! i = None
   ∧ pool_step RPCCall on_return msgCopy method i pool = (pool, []))
  ∨ (∃ n, pool !! i = Some (n, Spawned)
       ∧ pool_step RPCCall on_return msgCopy method i pool
         = (<[i := (n, Calling)]> pool, [NetCall n msgCopy method]))
  ∨ (∃ n st st' r, pool !! i = Some (n, st) ∧ st ≠ Spawned ∧ st' ≠ Spawned
       ∧ pool_step RPCCall on_return msgCopy method i pool
         = (<[i := (n, st')]> pool, r)
       ∧ (r = [] ∨ ∃ x, r = on_return n x)).
Proof.
  unfold pool_step. destruct (pool !! i) as [[n st]|] eqn:Hi; [|by left].
  right. destruct st; cbn.
  - left. by exists n.
  - right. destruct (RPCCall n msgCopy method) as [x|].
    + exists n, Calling, Finished, (on_return n x).
      repeat split; try done. right. by exists x.
    + exists n, Calling, Calling, []. repeat split; try done. by left.
  - right. exists n, Finished, Finished, []. repeat split; try done.
    by left.
Qed.

(** Every call issued is the call of a goroutine that was pending, and each
    pending goroutine issues at most one. *)
Lemma run_schedule_called RPCCall on_return msgCopy method schedule :
  (∀ n x, called (on_return n x) = []) →
  ∀ pool,
  called (run_schedule RPCCall on_return msgCopy method schedule pool).2
    ++ pending (run_schedule RPCCall on_return msgCopy method schedule pool).1
  ≡ₚ pending pool.
Proof.
  intros Hret. induction schedule as [|i schedule IH]; intros pool; [done|].
  cbn [run_schedule].
  destruct (pool_step_cases RPCCall on_return msgCopy method i pool)
    as [[_ ->]|[(n & Hi & ->)|(n & st & st' & r & Hi & Hst & Hst' & -> & Hr)]].
  - specialize (IH pool). destruct (run_schedule _ _ _ _ schedule pool).
    done.
  - specialize (IH (<[i := (n, Calling)]> pool)).
    destruct (run_schedule _ _ _ _ schedule _) as [pool2 t2].
    cbn [fst snd app called] in *.
    rewrite <- (pending_insert_spawned pool i n Calling Hi) by done.
    by rewrite IH.
  - specialize (IH (<[i := (n, st')]> pool)).
    destruct (run_schedule _ _ _ _ schedule _) as [pool2 t2].
    cbn [fst snd] in *. rewrite called_app.
    assert (called r = []) as -> by (destruct Hr as [->|[x ->]]; [done|apply Hret]).
    by rewrite IH, (pending_insert_started pool i n st st' Hi).
Qed.

(** A goroutine that is scheduled issues its call, whatever the others do
    and whatever any call returns. *)
Lemma run_schedule_calls RPCCall on_return msgCopy method schedule :
  ∀ pool i n,
  pool !! i = Some (n, Spawned) → i ∈ schedule →
  n ∈ called (run_schedule RPCCall on_return msgCopy method schedule pool).2.
Proof.
  induction schedule as [|j schedule IH]; intros pool i n Hi Hin.
  - by apply elem_of_nil in Hin.
  - cbn [run_schedule]. destruct (decide (j = i)) as [->|Hne].
    + destruct (pool_step_cases RPCCall on_return msgCopy method i pool)
        as [[Hnone _]|[(n' & Hi' & ->)|(n' & st & _ & _ & Hi' & Hst & _)]];
        simplify_eq.
      destruct (run_schedule _ _ _ _ schedule _) as [pool2 t2].
      cbn. by left.
    + apply elem_of_cons in Hin as [->|Hin]; [done|].
      assert ((pool_step RPCCall on_return msgCopy method j pool).1 !! i
              = Some (n, Spawned)) as Hi1.
      { destruct (pool_step_cases RPCCall on_return msgCopy method j pool)
          as [[_ ->]|[(n' & _ & ->)|(n' & st & st' & r & _ & _ & _ & -> & _)]];
          cbn [fst]; by rewrite ?list_lookup_insert_ne. }
      specialize (IH _ i n Hi1 Hin).
      destruct (pool_step _ _ _ _ j pool) as [pool1 t1]. cbn [fst] in IH.
      destruct (run_schedule _ _ _ _ schedule pool1) as [pool2 t2].
      cbn [fst snd] in *. rewrite called_app. apply elem_of_app. by right.
Qed.

Lemma pool_step_length RPCCall on_return msgCopy method i pool :
  length (pool_step RPCCall on_return msgCopy method i pool).1 = length pool.
Proof.
  destruct (pool_step_cases RPCCall on_return msgCopy method i pool)
    as [[_ ->]|[(n' & _ & ->)|(n' & st & st' & r & _ & _ & _ & -> & _)]];
    cbn [fst]; by rewrite ?length_insert.
Qed.

(** A goroutine that has issued its call stays so, and the one that takes
    a step has issued its call after it. *)
Lemma pool_step_has_called RPCCall on_return msgCopy method i pool j :
  has_called pool j ∨ (j = i ∧ (j < length pool)%nat) →
  has_called (pool_step RPCCall on_return msgCopy method i pool).1 j.
Proof.
  intros Hj.
  destruct (pool_step_cases RPCCall on_return msgCopy method i pool)
    as [[Hnone ->]|[(n & Hi & ->)|(n & st & st' & r & Hi & Hst & Hst' & -> & _)]];
    cbn [fst].
  - destruct Hj as [Hj|[-> Hlt]]; [done|].
    apply lookup_ge_None in Hnone. lia.
  - destruct (decide (j = i)) as [->|Hne].
    + exists n, Calling. rewrite list_lookup_insert_eq; [done|].
      by apply lookup_lt_Some in Hi.
    + destruct Hj as [(m & stm & Hm & Hstm)|[-> _]]; [|done].
      exists m, stm. by rewrite list_lookup_insert_ne.
  - destruct (decide (j = i)) as [->|Hne].
    + exists n, st'. rewrite list_lookup_insert_eq; [done|].
      by apply lookup_lt_Some in Hi.
    + destruct Hj as [(m & stm & Hm & Hstm)|[-> _]]; [|done].
      exists m, stm. by rewrite list_lookup_insert_ne.
Qed.

Lemma run_schedule_has_called RPCCall on_return msgCopy method schedule :
  ∀ pool j,
  has_called pool j ∨ (j ∈ schedule ∧ (j < length pool)%nat) →
  has_called (run_schedule RPCCall on_return msgCopy method schedule pool).1 j.
Proof.
  induction schedule as [|i schedule IH]; intros pool j Hj.
  - destruct Hj as [Hj|[Hin _]]; [done|]. by apply elem_of_nil in Hin.
  - cbn [run_schedule].
    assert (has_called (pool_step RPCCall on_return msgCopy method i pool).1 j
            ∨ (j ∈ schedule
               ∧ (j < length (pool_step RPCCall on_return msgCopy method i
                                pool).1)%nat)) as Hj1.
    { rewrite pool_step_length.
      destruct Hj as [Hj|[Hin Hlt]].
      - left. apply pool_step_has_called. by left.
      - apply elem_of_cons in Hin as [->|Hin]; [|by right].
        left. apply pool_step_has_called. by right. }
    specialize (IH _ j Hj1).
    destruct (pool_step _ _ _ _ i pool) as [pool1 t1]. cbn [fst] in IH.
    by destruct (run_schedule _ _ _ _ schedule pool1) as [pool2 t2].
Qed.

Lemma pending_nil pool :
  (∀ j, (j < length pool)%nat → has_called pool j) → pending pool = [].
Proof.
  induction pool as [|[n st] pool IH]; intros Hall; [done|].
  destruct (Hall 0%nat ltac:(cbn; lia)) as (m & stm & [= <- <-] & Hst).
  destruct st; [done| |]; cbn; apply IH; intros j Hj;
    destruct (Hall (S j) ltac:(cbn; lia)) as (m' & stm' & Hm & Hstm);
    by exists m', stm'.
Qed.

Lemma run_schedule_length RPCCall on_return msgCopy method schedule :
  ∀ pool,
  length (run_schedule RPCCall on_return msgCopy method schedule pool).1
  = length pool.
Proof.
  induction schedule as [|i schedule IH]; intros pool; [done|].
  cbn [run_schedule].
  pose proof (pool_step_length RPCCall on_return msgCopy method i pool) as Hl.
  specialize (IH (pool_step RPCCall on_return msgCopy method i pool).1).
  destruct (pool_step _ _ _ _ i pool) as [pool1 t1]. cbn [fst] in *.
  destruct (run_schedule _ _ _ _ schedule pool1) as [pool2 t2].
  cbn [fst] in *. lia.
Qed.

(** When every goroutine has been scheduled, the nodes called are the nodes
    of the list, each as often as it is listed. *)
Lemma run_schedule_all RPCCall on_return msgCopy method schedule
    (nodes : list Node) :
  (∀ n x, called (on_return n x) = []) →
  runs_all (length nodes) schedule →
  called (run_schedule RPCCall on_return msgCopy method schedule
            (spawn_all nodes)).2 ≡ₚ nodes.
Proof.
  intros Hret Hall.
  pose proof (run_schedule_called RPCCall on_return msgCopy method schedule
                Hret (spawn_all nodes)) as Hperm.
  rewrite pending_spawn_all in Hperm.
  rewrite pending_nil in Hperm; [by rewrite app_nil_r in Hperm|].
  intros j Hj. rewrite run_schedule_length, length_spawn_all in Hj.
  apply run_schedule_has_called. right.
  rewrite length_spawn_all. split; [by apply Hall | done].
Qed.

(** The calls issued do not depend on what calls return: two runs of the
    broadcast goroutines under one schedule issue the same calls, whether
    calls succeed, fail or never return. *)
Lemma run_schedule_outcome_free RPCCall RPCCall' msgCopy method schedule :
  ∀ pool pool',
  same_pending pool pool' →
  (run_schedule RPCCall broadcast_return msgCopy method schedule pool).2
  = (run_schedule RPCCall' broadcast_return msgCopy method schedule pool').2.
Proof.
  induction schedule as [|i schedule IH]; intros pool pool' Hsame; [done|].
  cbn [run_schedule].
  assert (same_pending
            (pool_step RPCCall broadcast_return msgCopy method i pool).1
            (pool_step RPCCall' broadcast_return msgCopy method i pool').1
          ∧ (pool_step RPCCall broadcast_return msgCopy method i pool).2
            = (pool_step RPCCall' broadcast_return msgCopy method i pool').2)
    as [Hsame1 Hev].
  { unfold pool_step.
    destruct (pool !! i) as [[n st]|] eqn:Hi.
    - destruct (Forall2_lookup_l _ _ _ _ _ Hsame Hi)
        as ([n' st'] & Hi' & Hn & Hst). cbn in Hn, Hst. subst n'.
      rewrite Hi'.
      destruct st, st';
        try (by destruct Hst as [H1 H2];
             first [discriminate (H1 eq_refl) | discriminate (H2 eq_refl)]);
        cbn [node_step];
        destruct (RPCCall n msgCopy method) as [[? ?]|];
        destruct (RPCCall' n msgCopy method) as [[? ?]|];
        cbn [fst snd broadcast_return];
        (split; [apply Forall2_insert; [done|by split] | done]).
    - assert (pool' !! i = None) as ->; [|done].
      apply lookup_ge_None. apply lookup_ge_None in Hi.
      by rewrite <- (Forall2_length _ _ _ Hsame). }
  specialize (IH _ _ Hsame1).
  destruct (pool_step RPCCall _ _ _ i pool) as [pool1 t1].
  destruct (pool_step RPCCall' _ _ _ i pool') as [pool1' t1'].
  cbn [fst snd] in *.
  destruct (run_schedule RPCCall _ _ _ schedule pool1) as [pool2 t2].
  destruct (run_schedule RPCCall' _ _ _ schedule pool1') as [pool2' t2'].
  cbn [fst snd] in *. by rewrite Hev, IH.
Qed.

(** The broadcast goroutines do nothing but issue calls, each with the
    cloned payload and the method. *)
Lemma run_schedule_broadcast_events RPCCall msgCopy method schedule :
  ∀ pool,
  Forall (λ e, ∃ n, e = NetCall n msgCopy method)
    (run_schedule RPCCall broadcast_return msgCopy method schedule pool).2.
Proof.
  induction schedule as [|i schedule IH]; intros pool; [constructor|].
  cbn [run_schedule].
  destruct (pool_step_cases RPCCall broadcast_return msgCopy method i pool)
    as [[_ ->]|[(n & Hi & ->)|(n & st & st' & r & Hi & Hst & Hst' & -> & Hr)]].
  - specialize (IH pool). by destruct (run_schedule _ _ _ _ schedule pool).
  - specialize (IH (<[i := (n, Calling)]> pool)).
    destruct (run_schedule _ _ _ _ schedule _) as [pool2 t2].
    cbn [snd app] in *. constructor; [by exists n | done].
  - specialize (IH (<[i := (n, st')]> pool)).
    destruct (run_schedule _ _ _ _ schedule _) as [pool2 t2].
    cbn [snd] in *.
    assert (r = []) as -> by (destruct Hr as [->|[[? ?] ->]]; done).
    done.
Qed.
End PoolFacts.

Section FanOutFacts.
Context `{HOST : Host}.

(** On every path the interceptor returns what [next] returned. *)
Lemma broadcast_returns_next (cfg : Configuration) (method : string)
    order ctx msg (next : Handler) (s : State) :
  out_of (NewBroadcastInterceptor cfg method order ctx msg next s)
  = (next ctx msg (world s)).1.
Proof.
  destruct (decide (GetMethod msg = method)) as [Hm|Hm].
  - destruct (Marshal (GetProtoMessage msg)) as [bs [e|]] eqn:Hb.
    + by rewrite (intercept_marshal_error _ _ _ _ _ _ _ bs e).
    + by rewrite (intercept_marshalled _ _ _ _ _ _ _ bs).
  - rewrite intercept_other by done. by rewrite call_eq.
Qed.

(** C7.  On a first sighting the interceptor spawns one goroutine, the
    broadcast of this message to the configuration, and returns what [next]
    returned: nothing of the fan-out reaches the caller.  That goroutine
    starts one goroutine per entry of [cfg.Nodes()].  Under every schedule
    of these goroutines and whatever the calls do (succeed, fail, time out
    or never return): nothing happens but calls with the cloned payload and
    the method; the nodes called are among the nodes listed, none more often
    than it is listed, so no call is repeated; a goroutine that gets to run
    issues its call, so a node whose call fails or hangs holds back no
    other; when every goroutine has run the nodes called are exactly the
    nodes listed; and the calls issued are the same whatever any call
    returns. *)
Theorem broadcast_fan_out_one_call_per_node (cfg : Configuration)
    (method : string) order ctx (msg : Message) (next : Handler) (s : State)
    (bs : list byte) :
  GetMethod msg = method →
  Marshal (GetProtoMessage msg) = (bs, None) →
  fingerprint bs ∉ broadcastedHashes s →
  spawns (trace_of (NewBroadcastInterceptor cfg method order ctx msg next s))
  = [GoBroadcast cfg method msg]
  ∧ out_of (NewBroadcastInterceptor cfg method order ctx msg next s)
    = (next ctx msg (world s)).1
  ∧ (∀ (RPCCall : Rpc Node ProtoMessage (option Message) Err) schedule,
       Forall (λ e, ∃ n, e = NetCall n (Clone (GetProtoMessage msg)) method)
         (run_goroutine RPCCall (GoBroadcast cfg method msg) schedule).2
       ∧ called (run_goroutine RPCCall (GoBroadcast cfg method msg)
                   schedule).2 ⊆+ Nodes cfg
       ∧ (∀ i n, Nodes cfg !! i = Some n → i ∈ schedule →
            n ∈ called (run_goroutine RPCCall (GoBroadcast cfg method msg)
                          schedule).2)
       ∧ (runs_all (length (Nodes cfg)) schedule →
            called (run_goroutine RPCCall (GoBroadcast cfg method msg)
                      schedule).2 ≡ₚ Nodes cfg)
       ∧ (∀ RPCCall' : Rpc Node ProtoMessage (option Message) Err,
            (run_goroutine RPCCall' (GoBroadcast cfg method msg) schedule).2
            = (run_goroutine RPCCall (GoBroadcast cfg method msg)
                 schedule).2)).
Proof.
  intros Hm Hb Hnew. split; [|split].
  - rewrite (intercept_marshalled _ _ _ _ _ _ _ bs) by done.
    unfold trace_of, after_next. cbn [snd].
    by rewrite checkAndMark_flag, bool_decide_eq_false_2.
  - apply broadcast_returns_next.
  - intros RPCCall schedule. cbn [run_goroutine].
    assert (∀ (n : Node) (x : option Message * option Err),
              called (broadcast_return (ProtoMessage:=ProtoMessage) n x) = [])
      as Hret by (by intros n [? ?]).
    split; [apply run_schedule_broadcast_events|].
    split; [|split; [|split]].
    + pose proof (run_schedule_called RPCCall broadcast_return
                    (Clone (GetProtoMessage msg)) method schedule Hret
                    (spawn_all (Nodes cfg))) as Hperm.
      rewrite pending_spawn_all in Hperm.
      etrans; [|apply Permutation_submseteq, Hperm].
      by apply submseteq_inserts_r.
    + intros i n Hi Hin. apply (run_schedule_calls _ _ _ _ _ _ i); [|done].
      by apply lookup_spawn_all.
    + intros Hall. by apply run_schedule_all.
    + intros RPCCall'. apply run_schedule_outcome_free.
      apply Forall2_same_length_lookup. split; [done|].
      intros i g g' Hg Hg'. by simplify_eq.
Qed.
End FanOutFacts.

(** * Sequences of invocations *)

Section Delivery.
Context `{HOST : Host}.
Implicit Types (cfg : Configuration) (method : string) (s : State)
  (a : Arrival) (arrivals rest : list Arrival).

(** One step of a delivery. *)
Lemma deliver_cons (ic : Interceptor) a rest s :
  deliver ic (a :: rest) s
  = let r := ic (arr_order a) (arr_ctx a) (arr_msg a) (arr_next a) s in
    ((out_of r, trace_of r) :: (deliver ic rest (state_of r)).1,
     (deliver ic rest (state_of r)).2).
Proof.
  simpl. destruct (ic _ _ _ _ s) as [[o s1] t]. simpl.
  unfold state_of. simpl. by destruct (deliver ic rest s1).
Qed.

(** An arrival that reaches the critical section, in terms of it. *)
Lemma intercept_reaching cfg method a s :
  reaches_cache method a →
  NewBroadcastInterceptor cfg method (arr_order a) (arr_ctx a) (arr_msg a)
    (arr_next a) s
  = after_next (arr_next a) (arr_ctx a) (arr_msg a)
      (checkAndMark (arr_order a) (arr_fp a) (broadcastedHashes s)).1 s
      ([EvMarshal (GetProtoMessage (arr_msg a));
        EvSum256 (Marshal (GetProtoMessage (arr_msg a))).1;
        EvNext (arr_ctx a) (arr_msg a)]
       ++ if (checkAndMark (arr_order a) (arr_fp a) (broadcastedHashes s)).2
          then [] else [EvGo (GoBroadcast cfg method (arr_msg a))]).
Proof.
  intros [Hm Hb]. unfold arr_fp.
  destruct (Marshal (GetProtoMessage (arr_msg a))) as [bs o] eqn:Hbs.
  simpl in *. subst o. by apply intercept_marshalled.
Qed.

(** Every path keeps the cache within its limit. *)
Lemma intercept_bounded cfg method order ctx msg (next : Handler) s :
  RangeOrder order →
  Z.of_nat (size (broadcastedHashes s)) ≤ cacheLimit →
  Z.of_nat (size (broadcastedHashes
    (state_of (NewBroadcastInterceptor cfg method order ctx msg next s))))
  ≤ cacheLimit.
Proof.
  intros Ho Hs. destruct (decide (GetMethod msg = method)) as [Hm|Hm].
  - destruct (Marshal (GetProtoMessage msg)) as [bs [e|]] eqn:Hb.
    + by rewrite (intercept_marshal_error _ _ _ _ _ _ _ bs e).
    + rewrite (intercept_marshalled _ _ _ _ _ _ _ bs) by done.
      by apply checkAndMark_bounded.
  - rewrite intercept_other by done. by rewrite call_eq.
Qed.

(** C3.  Starting from a new instance, after each invocation of any
    sequence of arrivals the cache holds at most 10000 entries; and an
    insertion into a cache holding exactly 10000 entries is followed by one
    pass that leaves 5001, one more than half the bound. *)
Theorem cache_never_exceeds_bound cfg method arrivals (w : World) :
  Forall (λ a, RangeOrder (arr_order a)) arrivals →
  Forall (λ s', Z.of_nat (size (broadcastedHashes s')) ≤ cacheLimit)
    (deliver_states (NewBroadcastInterceptor cfg method) arrivals (fresh w))
  ∧ (∀ s order ctx msg (next : Handler) bs,
       RangeOrder order →
       GetMethod msg = method →
       Marshal (GetProtoMessage msg) = (bs, None) →
       fingerprint bs ∉ broadcastedHashes s →
       Z.of_nat (size (broadcastedHashes s)) = cacheLimit →
       Z.of_nat (size (broadcastedHashes
         (state_of (NewBroadcastInterceptor cfg method order ctx msg next s))))
       = cacheLimit / 2 + 1).
Proof.
  intros Ho. split.
  - assert (Z.of_nat (size (broadcastedHashes (fresh w))) ≤ cacheLimit) as Hs.
    { unfold fresh. cbn [broadcastedHashes]. rewrite size_empty.
      unfold cacheLimit. lia. }
    revert Hs. generalize (fresh w) as s.
    induction Ho as [|a rest Ha _ IH]; intros s Hs; simpl; [constructor|].
    pose proof (intercept_bounded cfg method (arr_order a) (arr_ctx a)
                  (arr_msg a) (arr_next a) s Ha Hs) as Hs1.
    constructor; [done|]. by apply IH.
  - intros s order ctx msg next bs Hord Hm Hb Hnew Hsz.
    rewrite (intercept_marshalled _ _ _ _ _ _ _ bs) by done.
    unfold state_of, after_next. simpl.
    rewrite checkAndMark_overflow_size by done.
    unfold cacheLimit, evictCount. reflexivity.
Qed.
End Delivery.

(** * Duplicates, below the limit and at the limit *)

Section Duplicates.
Context `{HOST : Host}.
Implicit Types (cfg : Configuration) (method : string) (s : State)
  (msg : Message) (next : Handler) (a : Arrival) (rest : list Arrival).



(** When the loop meets the new key within its first 5000 keys, the key is
    gone when the lock is released. *)
Lemma newest_first_evicts (h : string) (m : gset string) :
  h ∉ m → Z.of_nat (size m) >= cacheLimit →
  h ∉ (checkAndMark (newest_first h) h m).1.
Proof.
  intros Hnew Hsz. rewrite checkAndMark_full by done. cbn [fst].
  unfold newest_first. rewrite decide_True by set_solver.
  replace (Z.to_nat evictCount) with (S (Z.to_nat (evictCount - 1)))
    by (unfold evictCount; lia).
  rewrite firstn_cons, list_to_set_cons. set_solver.
Qed.

(** At the limit, under the order [newest_first], a payload is a first
    sighting twice in a row. *)
Lemma first_sighting_twice cfg method ctx msg next next' s bs :
  GetMethod msg = method →
  Marshal (GetProtoMessage msg) = (bs, None) →
  fingerprint bs ∉ broadcastedHashes s →
  Z.of_nat (size (broadcastedHashes s)) = cacheLimit →
  (fingerprint bs ∉ broadcastedHashes
     (state_of (NewBroadcastInterceptor cfg method
                  (newest_first (fingerprint bs)) ctx msg next s)))
  ∧ spawns (trace_of (NewBroadcastInterceptor cfg method
                        (newest_first (fingerprint bs)) ctx msg next s))
    = [GoBroadcast cfg method msg]
  ∧ spawns (trace_of (NewBroadcastInterceptor cfg method
                        (newest_first (fingerprint bs)) ctx msg next'
      (state_of (NewBroadcastInterceptor cfg method
                   (newest_first (fingerprint bs)) ctx msg next s))))
    = [GoBroadcast cfg method msg].
Proof.
  intros Hm Hb Hnew Hsz.
  pose proof (newest_first_evicts _ _ Hnew ltac:(lia)) as Hgone.
  rewrite !(intercept_marshalled _ _ _ _ _ _ _ bs) by done.
  unfold trace_of, state_of, after_next. cbn [fst snd broadcastedHashes].
  rewrite !checkAndMark_flag.
  rewrite !bool_decide_eq_false_2 by done. by repeat split.
Qed.

(** C8.  An insertion into a cache of exactly 10000 entries is followed by
    a pass that deletes exactly 5000 entries of the 10001, whichever order
    the runtime iterates in, and the message is broadcast as a first
    sighting.  For some order the inserted fingerprint is among the deleted:
    it is absent from the cache when the invocation ends, and the same
    payload delivered again is a first sighting again and is broadcast
    again. *)
Theorem overflow_may_evict_first_sighting cfg method ctx msg next s bs :
  GetMethod msg = method →
  Marshal (GetProtoMessage msg) = (bs, None) →
  fingerprint bs ∉ broadcastedHashes s →
  Z.of_nat (size (broadcastedHashes s)) = cacheLimit →
  (∀ order, RangeOrder order →
     broadcastedHashes
       (state_of (NewBroadcastInterceptor cfg method order ctx msg next s))
     ⊆ {[ fingerprint bs ]} ∪ broadcastedHashes s
     ∧ Z.of_nat (size (({[ fingerprint bs ]} ∪ broadcastedHashes s)
         ∖ broadcastedHashes
             (state_of (NewBroadcastInterceptor cfg method order ctx msg
                          next s))))
       = evictCount
     ∧ spawns (trace_of (NewBroadcastInterceptor cfg method order ctx msg
                           next s))
       = [GoBroadcast cfg method msg])
  ∧ (∃ order, RangeOrder order
     ∧ (fingerprint bs ∉ broadcastedHashes
          (state_of (NewBroadcastInterceptor cfg method order ctx msg next s)))
     ∧ spawns (trace_of (NewBroadcastInterceptor cfg method order ctx msg
                           next s))
       = [GoBroadcast cfg method msg]
     ∧ spawns (trace_of (NewBroadcastInterceptor cfg method order ctx msg next
         (state_of (NewBroadcastInterceptor cfg method order ctx msg next
                      s))))
       = [GoBroadcast cfg method msg]).
Proof.
  intros Hm Hb Hnew Hsz. split.
  - intros order Ho.
    rewrite (intercept_marshalled _ _ _ _ _ _ _ bs) by done.
    unfold trace_of, state_of, after_next. cbn [fst snd broadcastedHashes].
    pose proof (checkAndMark_subseteq order (fingerprint bs)
                  (broadcastedHashes s)) as Hsub.
    pose proof (checkAndMark_overflow_size order (fingerprint bs)
                  (broadcastedHashes s) Ho Hnew Hsz) as Hleft.
    split; [done|]. split.
    + rewrite size_difference by done.
      rewrite size_union by set_solver. rewrite size_singleton.
      unfold cacheLimit, evictCount in *. lia.
    + rewrite checkAndMark_flag, bool_decide_eq_false_2 by done. done.
  - exists (newest_first (fingerprint bs)).
    split; [apply newest_first_RangeOrder|].
    by apply first_sighting_twice.
Qed.
End Duplicates.

(** * Filling the cache *)

Section Filling.
Context `{HOST : Host}.
Implicit Types (cfg : Configuration) (method : string) (s : State)
  (a : Arrival) (arrivals : list Arrival).

(** Arrivals with pairwise different fingerprints, none of them cached, are
    all inserted as long as the cache has room for them. *)
Lemma deliver_fills cfg method arrivals : ∀ s,
  Forall (reaches_cache method) arrivals →
  NoDup (arr_fp <$> arrivals) →
  (∀ a, a ∈ arrivals → arr_fp a ∉ broadcastedHashes s) →
  Z.of_nat (size (broadcastedHashes s)) + Z.of_nat (length arrivals)
    ≤ cacheLimit →
  broadcastedHashes (deliver (NewBroadcastInterceptor cfg method) arrivals s).2
  = list_to_set (arr_fp <$> arrivals) ∪ broadcastedHashes s.
Proof.
  induction arrivals as [|a arrivals IH]; intros s Hall Hnd Hnew Hsz.
  - cbn [deliver snd fmap list_fmap list_to_set]. set_solver.
  - apply Forall_cons in Hall as [Ha Hall].
    rewrite fmap_cons in Hnd. apply NoDup_cons in Hnd as [Hhd Hnd].
    assert (arr_fp a ∉ broadcastedHashes s) as Ha_new
      by (apply Hnew; left).
    cbn [length] in Hsz.
    rewrite deliver_cons. cbn [snd].
    rewrite (intercept_reaching cfg method a s Ha).
    rewrite checkAndMark_room by (done || lia).
    unfold state_of, after_next. cbn [fst snd].
    rewrite IH; cbn [broadcastedHashes].
    + rewrite fmap_cons, list_to_set_cons. set_solver.
    + done.
    + done.
    + intros b Hb. apply not_elem_of_union. split.
      * apply not_elem_of_singleton. intros Heq. apply Hhd.
        rewrite <- Heq. apply list_elem_of_fmap. by exists b.
      * apply Hnew. by right.
    + rewrite size_union by set_solver. rewrite size_singleton. lia.
Qed.
End Filling.

(** * The storage example, run *)

Section DemoFacts.
Import Demo.

(** The payloads below [k], each once. *)
Lemma elem_of_payloads (n : N) (k : Z) :
  n ∈ payloads k ↔ Z.of_N n < k.
Proof.
  unfold payloads. rewrite list_elem_of_fmap. split.
  - intros (i & -> & Hi). apply elem_of_seq in Hi. lia.
  - intros Hn. exists (N.to_nat n). split; [lia|].
    apply elem_of_seq. lia.
Qed.

Lemma NoDup_payloads (k : Z) : NoDup (payloads k).
Proof.
  unfold payloads. apply NoDup_fmap_2; [|apply NoDup_seq].
  intros i j Hij. lia.
Qed.

Lemma length_payloads (k : Z) : 0 ≤ k → Z.of_nat (length (payloads k)) = k.
Proof.
  intros Hk. unfold payloads. rewrite length_fmap, length_seq. lia.
Qed.

(** Reading back the fingerprint of each of the first 10001 payloads gives
    the payload: checked by evaluation. *)
Lemma unhex_fp :
  Forall (λ n, unhex 0 (fp n) = n) (payloads (cacheLimit + 1)).
Proof.
  apply (bool_decide_unpack
           (Forall (λ n, unhex 0 (fp n) = n) (payloads (cacheLimit + 1)))).
  vm_compute. exact I.
Qed.

(** So the first 10001 fingerprints are pairwise different. *)
Lemma fp_inj (a b : N) :
  Z.of_N a ≤ cacheLimit → Z.of_N b ≤ cacheLimit → fp a = fp b → a = b.
Proof.
  intros Ha Hb Heq.
  pose proof unhex_fp as Hall. rewrite Forall_forall in Hall.
  rewrite <- (Hall a), <- (Hall b), Heq; [done| |];
    apply elem_of_payloads; lia.
Qed.

Lemma NoDup_fp (k : Z) : k ≤ cacheLimit + 1 → NoDup (fp <$> payloads k).
Proof.
  intros Hk. apply NoDup_fmap_2_strong; [|apply NoDup_payloads].
  intros a b Ha%elem_of_payloads Hb%elem_of_payloads.
  apply fp_inj; lia.
Qed.

(** The full cache holds 10000 entries, and not the late fingerprint. *)
Lemma full_size : Z.of_nat (size (broadcastedHashes full)) = cacheLimit.
Proof.
  unfold full. cbn [broadcastedHashes].
  rewrite size_list_to_set by (apply NoDup_fp; lia).
  rewrite length_fmap. apply length_payloads. unfold cacheLimit. lia.
Qed.

Lemma late_is_new : fp 10000 ∉ broadcastedHashes full.
Proof.
  unfold full. cbn [broadcastedHashes].
  rewrite elem_of_list_to_set, list_elem_of_fmap.
  intros (n & Heq & Hn%elem_of_payloads).
  apply fp_inj in Heq; unfold cacheLimit in *; lia.
Qed.

(** Each of the ten thousand writes is of the method and serializes. *)
Lemma write_reaches_cache (n : N) :
  Z.of_N n < cacheLimit → reaches_cache method (write n) ∧ arr_fp (write n) = fp n.
Proof.
  intros Hn. unfold reaches_cache, arr_fp, write, fp.
  cbn [arr_msg GetMethod GetProtoMessage Marshal host fst snd].
  assert ((n <? 65536)%N = true) as ->
    by (apply N.ltb_lt; unfold cacheLimit in *; lia).
  done.
Qed.

(** Delivering the ten thousand writes to a new instance fills its cache
    with their fingerprints. *)
Lemma warmup_fills :
  broadcastedHashes (deliver ic warmup (fresh [])).2
  = broadcastedHashes full.
Proof.
  assert (arr_fp <$> warmup = fp <$> payloads cacheLimit) as Hfp.
  { unfold warmup. rewrite <- list_fmap_compose.
    apply Forall_fmap_ext_1, Forall_forall.
    intros n Hn%elem_of_payloads. by apply write_reaches_cache. }
  unfold ic. rewrite (deliver_fills (HOST:=host) peers method warmup (fresh (HOST:=host) [])).
  - rewrite Hfp. unfold fresh, full. cbn [broadcastedHashes].
    apply union_empty_r_L.
  - unfold warmup. apply Forall_fmap, Forall_forall.
    intros n Hn%elem_of_payloads. by apply write_reaches_cache.
  - rewrite Hfp. apply NoDup_fp. lia.
  - intros a _. unfold fresh. cbn [broadcastedHashes].
    apply not_elem_of_empty.
  - unfold fresh. cbn [broadcastedHashes]. rewrite size_empty.
    unfold warmup. rewrite length_fmap.
    rewrite length_payloads by (unfold cacheLimit; lia). lia.
Qed.
End DemoFacts.

(** * The theorems at concrete inputs *)

Import Demo.

(** The scenario of the specification: three peers, the same write twice.
    The first call is answered by the storage handler and spawns the
    goroutine, which calls each of the three peers; the second is answered
    as well and spawns nothing. *)
Example storage_scenario :
  deliver ic [write 7; write 7] (fresh [])
  = ([((Some seven, None),
       [EvMarshal 7%N; EvSum256 (encode2 7); EvNext tt seven;
        EvGo (GoBroadcast peers method seven)]);
      ((Some seven, None),
       [EvMarshal 7%N; EvSum256 (encode2 7); EvNext tt seven])],
     mkState {[ "0007" ]} [7%N; 7%N])
  ∧ ∀ RPCCall,
      (run_goroutine RPCCall (GoBroadcast peers method seven)
         [0; 1; 2]%nat).2
      = [NetCall "127.0.0.1:50001" 7%N method;
         NetCall "127.0.0.1:50002" 7%N method;
         NetCall "127.0.0.1:50003" 7%N method].
Proof. split; [reflexivity|]. intros RPCCall. reflexivity. Qed.

(** C7 at a first write, with a peer that never answers: the other two are
    called all the same, and the caller has its response. *)
Lemma broadcast_fan_out_one_call_per_node_witness :
  spawns (trace_of (Demo.ic elements tt Demo.seven Demo.store (fresh [])))
  = [GoBroadcast Demo.peers Demo.method Demo.seven]
  ∧ out_of (Demo.ic elements tt Demo.seven Demo.store (fresh []))
    = (Some Demo.seven, None)
  ∧ called (run_goroutine Demo.flaky
              (GoBroadcast Demo.peers Demo.method Demo.seven)
              Demo.interleaved).2
    ≡ₚ Demo.peers.
Proof.
  destruct (broadcast_fan_out_one_call_per_node (HOST:=Demo.host)
              Demo.peers Demo.method
              elements tt Demo.seven Demo.store (fresh (HOST:=Demo.host) [])
              (Demo.encode2 7) eq_refl eq_refl (not_elem_of_empty _))
    as (Hgo & Hout & Hrun).
  split; [exact Hgo|]. split; [exact Hout|].
  destruct (Hrun Demo.flaky Demo.interleaved) as (_ & _ & _ & Hall & _).
  apply Hall. intros [|[|[|i]]] Hi; unfold Demo.interleaved;
    [repeat first [apply list_elem_of_here | apply list_elem_of_further]..
    |cbn in Hi; lia].
Defined.

(** C4 at a read request. *)
Lemma broadcast_filter_miss_is_next_witness :
  GetMethod Demo.other ≠ Demo.method
  ∧ Demo.ic elements tt Demo.other Demo.store (fresh [])
    = call Demo.store tt Demo.other (fresh []).
Proof.
  assert (GetMethod Demo.other ≠ Demo.method) as Hm by discriminate.
  split; [exact Hm|].
  exact (proj1 (broadcast_filter_miss_is_next Demo.peers Demo.method elements
                  tt Demo.other Demo.store (fresh []) Hm)).
Defined.

(** C2 at a first write to a new instance. *)
Lemma broadcast_calls_next_once_witness :
  GetMethod Demo.seven = Demo.method
  ∧ nexts (trace_of (Demo.ic elements tt Demo.seven Demo.store (fresh [])))
    = [(tt, Demo.seven)].
Proof.
  split; [reflexivity|].
  exact (proj1 (broadcast_calls_next_once Demo.peers Demo.method elements tt
                  Demo.seven Demo.store (fresh []) eq_refl)).
Defined.

(** C6 at a write whose value does not serialize. *)
Lemma broadcast_marshal_error_passes_through_witness :
  Marshal (GetProtoMessage Demo.oversized)
  = ([], Some "proto: value out of range")
  ∧ trace_of (Demo.ic elements tt Demo.oversized Demo.store (fresh []))
    = [EvMarshal 70000%N;
       EvLog "BroadcastInterceptor: Failed to marshal message: %v"
         [ArgErr "proto: value out of range"];
       EvNext tt Demo.oversized].
Proof.
  split; [reflexivity|].
  exact (proj1 (broadcast_marshal_error_passes_through Demo.peers Demo.method
                  elements tt Demo.oversized Demo.store (fresh []) []
                  "proto: value out of range" eq_refl eq_refl)).
Defined.

(** C9, amended, at a first write whose handler fails. *)
Lemma broadcast_spawn_ignores_local_outcome_witness :
  (Demo.failing tt Demo.seven []).1.2 = Some "storage: write failed"
  ∧ trace_of (Demo.ic elements tt Demo.seven Demo.failing (fresh []))
    = [EvMarshal 7%N; EvSum256 (Demo.encode2 7); EvNext tt Demo.seven;
       EvGo (GoBroadcast Demo.peers Demo.method Demo.seven)].
Proof.
  split; [reflexivity|].
  refine (proj1 (broadcast_spawn_ignores_local_outcome Demo.peers Demo.method
                   elements tt Demo.seven Demo.failing (fresh [])
                   (Demo.encode2 7) eq_refl eq_refl _)).
  apply not_elem_of_empty.
Defined.

(** C10 at a read request and the predicate that always holds. *)
Lemma selective_other_method_skips_predicate_witness :
  GetMethod Demo.other ≠ Demo.method
  ∧ NewSelectiveBroadcastInterceptor Demo.peers Demo.method Demo.always
      elements tt Demo.other Demo.store (fresh [])
    = call Demo.store tt Demo.other (fresh []).
Proof.
  assert (GetMethod Demo.other ≠ Demo.method) as Hm by discriminate.
  split; [exact Hm|].
  exact (proj1 (selective_other_method_skips_predicate Demo.peers Demo.method
                  Demo.always elements tt Demo.other Demo.store (fresh [])
                  Hm)).
Defined.

(** C3 at three writes to a new instance. *)
Lemma cache_never_exceeds_bound_witness :
  Forall (λ s', Z.of_nat (size (broadcastedHashes s')) ≤ cacheLimit)
    (deliver_states Demo.ic [Demo.write 1; Demo.write 2; Demo.write 1]
       (fresh [])).
Proof.
  refine (proj1 (cache_never_exceeds_bound Demo.peers Demo.method
                   [Demo.write 1; Demo.write 2; Demo.write 1] [] _)).
  repeat (constructor; [intros m; reflexivity|]). constructor.
Defined.


(** C8 at the instance whose cache holds the ten thousand fingerprints. *)
Lemma overflow_may_evict_first_sighting_witness :
  ∃ order, RangeOrder order
  ∧ (Demo.fp 10000 ∉ broadcastedHashes
       (state_of (Demo.ic order tt Demo.late_msg Demo.store Demo.full)))
  ∧ spawns (trace_of (Demo.ic order tt Demo.late_msg Demo.store Demo.full))
    = [GoBroadcast Demo.peers Demo.method Demo.late_msg]
  ∧ spawns (trace_of (Demo.ic order tt Demo.late_msg Demo.store
      (state_of (Demo.ic order tt Demo.late_msg Demo.store Demo.full))))
    = [GoBroadcast Demo.peers Demo.method Demo.late_msg].
Proof.
  exact (proj2 (overflow_may_evict_first_sighting Demo.peers Demo.method tt
                  Demo.late_msg Demo.store Demo.full (Demo.encode2 10000)
                  eq_refl eq_refl late_is_new full_size)).
Defined.

(** * Where the specification and the code part *)


(** C9, as stated, fails.  A new instance receives the ten thousand writes
    of [Demo.warmup] and then one more write, whose handler fails, the
    runtime iterating newest first: the write is a first sighting and is
    broadcast, and its fingerprint is not in the cache when the invocation
    ends. *)
Lemma first_sighting_not_marked_at_overflow :
  spawns (trace_of (Demo.ic (newest_first (Demo.fp 10000)) tt Demo.late_msg
                      Demo.failing (deliver Demo.ic Demo.warmup (fresh [])).2))
  = [GoBroadcast Demo.peers Demo.method Demo.late_msg]
  ∧ (Demo.fp 10000 ∉ broadcastedHashes
       (state_of (Demo.ic (newest_first (Demo.fp 10000)) tt Demo.late_msg
                    Demo.failing
                    (deliver Demo.ic Demo.warmup (fresh [])).2))).
Proof.
  pose proof warmup_fills as Hc.
  set (warm := (deliver Demo.ic Demo.warmup (fresh (HOST:=Demo.host) [])).2)
    in *.
  clearbody warm.
  destruct (first_sighting_twice (HOST:=Demo.host) Demo.peers Demo.method tt
              Demo.late_msg Demo.failing Demo.failing warm
              (Demo.encode2 10000) eq_refl eq_refl) as (H0 & H1 & _).
  - rewrite Hc. apply late_is_new.
  - rewrite Hc. apply full_size.
  - split; [exact H1 | exact H0].
Qed.

(** C5, as stated, fails.  The predicate holds of the payload, the method is
    not the configured one, and nothing is spawned. *)
Lemma selective_predicate_true_no_broadcast :
  Demo.always (GetProtoMessage Demo.other) = true
  ∧ spawns (trace_of (NewSelectiveBroadcastInterceptor Demo.peers Demo.method
                        Demo.always elements tt Demo.other Demo.store
                        (fresh [])))
    = [].
Proof. split; reflexivity. Qed.

(** * The pass-through stages *)

Section StageFacts.
Context `{MW : Middleware}.
Implicit Types (ctx : ServerCtx) (msg : Message) (next : MwHandler)
  (s : State).


Lemma inner_app (t1 t2 : list MwEvent) :
  inner (t1 ++ t2) = inner t1 ++ inner t2.
Proof. induction t1 as [|[] t1 IH]; cbn; by rewrite ?IH. Qed.

Lemma inner_lift (t : list Event) : inner (MwInner <$> t) = t.
Proof. induction t as [|e t IH]; cbn; by rewrite ?IH. Qed.

(** The product [len * 100 * 1000000] stays within [int64] for every address
    of at most 92233720368 bytes. *)
Lemma delay_of_exact (node : string) :
  Z.of_nat (String.length node) ≤ 92233720368 →
  delay_of node = Z.of_nat (String.length node) * 100 * Millisecond.
Proof.
  intros Hlen. unfold delay_of, wrap64, Millisecond.
  change (2 ^ 63) with 9223372036854775808.
  change (2 ^ 64) with 18446744073709551616.
  rewrite (Z.mod_small (_ * 100 + _)) by lia.
  rewrite Z.mod_small by lia. lia.
Qed.

(** X2.  [DelayedInterceptor] sleeps once, before it hands the message on: for
    the delay computed from the sender's address, or for zero when the
    context names no peer or the peer has no address.  The delay is exactly
    100 ms for each byte of an address of at most 92233720368 bytes (beyond,
    the [int64] product wraps).  After the sleep the rest of the chain runs
    on the same message, and its response, error and state are returned; the
    stage adds log lines only. *)
Theorem delayed_sleeps_by_address_length ctx msg next s :
  let delay := match sender_address ctx with
               | Some node => delay_of node
               | None => 0
               end in
  (∃ logs, inner logs = [] ∧ sleeps logs = []
     ∧ wtrace (DelayedInterceptor ctx msg next s)
       = logs ++ MwSleep delay :: wtrace (next ctx msg s)
         ++ [MwLog "DelayedInterceptor: Finished processing message after %s"
               [MwDuration delay]])
  ∧ wout (DelayedInterceptor ctx msg next s) = wout (next ctx msg s)
  ∧ wstate (DelayedInterceptor ctx msg next s) = wstate (next ctx msg s)
  ∧ (∀ node, sender_address ctx = Some node →
       Z.of_nat (String.length node) ≤ 92233720368 →
       delay = Z.of_nat (String.length node) * 100 * Millisecond).
Proof.
  cbn zeta. unfold sender_address, DelayedInterceptor.
  destruct (peer_FromContext ctx) as [peer|]; [destruct (peer_Addr peer)|];
    unfold wbind, wlog, wret, sleep, wout, wstate, wtrace;
    destruct (next ctx msg s) as [[[out err] s1] t]; cbn;
    (split;
       [first [by eexists [_; _]; repeat split
              | by eexists [_]; repeat split] |]);
    repeat split; try done.
  intros node [= ->]. apply delay_of_exact.
Qed.

(** X3.  A request that is a [T] with key "foo" is answered by
    [NoFooAllowedInterceptor] itself, with a nil response and the error
    "requests for key 'foo' are not allowed": the rest of the chain is not
    run, so the state is untouched and the trace holds the two log lines
    of the stage and nothing else. *)
Theorem no_foo_rejects_key_foo ctx msg next s (req : Req) :
  asT (AsProto (Some msg)) = Some req →
  GetKey req = "foo" →
  NoFooAllowedInterceptor ctx msg next s
  = ((None, Some (Errorf "requests for key 'foo' are not allowed")), s,
     [MwLog "NoFooAllowedInterceptor: Received request for key '%s'"
        [MwString "foo"];
      MwLog "NoFooAllowedInterceptor: Rejecting request for key 'foo'" []]).
Proof.
  intros Hreq Hkey. unfold NoFooAllowedInterceptor.
  rewrite Hreq, Hkey. reflexivity.
Qed.

(** X4.  Every other request passes [NoFooAllowedInterceptor] unchanged: one that
    is not a [T], or a [T] with another key (an empty key, or "Foo",
    included), goes to the rest of the chain, whose response, error, state
    and events are the result. *)
Theorem no_foo_passes_other_keys ctx msg next s :
  (∀ req, asT (AsProto (Some msg)) = Some req → GetKey req ≠ "foo") →
  wout (NoFooAllowedInterceptor ctx msg next s) = wout (next ctx msg s)
  ∧ wstate (NoFooAllowedInterceptor ctx msg next s) = wstate (next ctx msg s)
  ∧ inner (wtrace (NoFooAllowedInterceptor ctx msg next s))
    = inner (wtrace (next ctx msg s)).
Proof.
  intros Hkey. unfold NoFooAllowedInterceptor.
  destruct (asT (AsProto (Some msg))) as [req|]; [|done].
  specialize (Hkey req eq_refl). apply String.eqb_neq in Hkey.
  rewrite Hkey. unfold wbind, wlog, wout, wstate, wtrace.
  by destruct (next ctx msg s) as [[[out err] s1] t].
Qed.
End StageFacts.

(** * The broadcast interceptor, by content and over sequences *)

Section Content.
Context `{HOST : Host}.
Implicit Types (cfg : Configuration) (method : string) (s : State)
  (msg : Message) (next : Handler) (order : gset string → list string)
  (a : Arrival) (arrivals : list Arrival).

(** On every path [next] is called once, on the message received. *)
Lemma broadcast_nexts cfg method order ctx msg next s :
  nexts (trace_of (NewBroadcastInterceptor cfg method order ctx msg next s))
  = [(ctx, msg)].
Proof.
  destruct (decide (GetMethod msg = method)) as [Hm|Hm].
  - destruct (Marshal (GetProtoMessage msg)) as [bs [e|]] eqn:Hb.
    + by rewrite (intercept_marshal_error _ _ _ _ _ _ _ bs e).
    + rewrite (intercept_marshalled _ _ _ _ _ _ _ bs) by done.
      unfold trace_of, after_next. cbn [snd].
      by destruct (checkAndMark _ _ _).2.
  - rewrite intercept_other by done. by rewrite call_eq.
Qed.

(** On every path the application is left as [next] left it. *)
Lemma broadcast_world cfg method order ctx msg next s :
  world (state_of (NewBroadcastInterceptor cfg method order ctx msg next s))
  = (next ctx msg (world s)).2.
Proof.
  destruct (decide (GetMethod msg = method)) as [Hm|Hm].
  - destruct (Marshal (GetProtoMessage msg)) as [bs [e|]] eqn:Hb.
    + by rewrite (intercept_marshal_error _ _ _ _ _ _ _ bs e).
    + by rewrite (intercept_marshalled _ _ _ _ _ _ _ bs).
  - rewrite intercept_other by done. by rewrite call_eq.
Qed.

(** What the interceptor does to the cache, and whether it broadcasts, is a
    function of the method, the payload and the cache. *)
Lemma broadcast_by_content cfg method order ctx1 ctx2 msg1 msg2 next1 next2
    s1 s2 :
  GetMethod msg1 = GetMethod msg2 →
  GetProtoMessage msg1 = GetProtoMessage msg2 →
  broadcastedHashes s1 = broadcastedHashes s2 →
  broadcastedHashes
    (state_of (NewBroadcastInterceptor cfg method order ctx1 msg1 next1 s1))
  = broadcastedHashes
      (state_of (NewBroadcastInterceptor cfg method order ctx2 msg2 next2 s2))
  ∧ length (spawns (trace_of
      (NewBroadcastInterceptor cfg method order ctx1 msg1 next1 s1)))
    = length (spawns (trace_of
        (NewBroadcastInterceptor cfg method order ctx2 msg2 next2 s2))).
Proof.
  intros Hmeth Hpay Hcache.
  destruct (decide (GetMethod msg1 = method)) as [Hm|Hm].
  - assert (GetMethod msg2 = method) as Hm2 by congruence.
    destruct (Marshal (GetProtoMessage msg1)) as [bs [e|]] eqn:Hb.
    + rewrite (intercept_marshal_error _ _ _ _ msg1 _ _ bs e) by done.
      rewrite (intercept_marshal_error _ _ _ _ msg2 _ _ bs e)
        by (done || by rewrite <- Hpay).
      done.
    + rewrite (intercept_marshalled _ _ _ _ msg1 _ _ bs) by done.
      rewrite (intercept_marshalled _ _ _ _ msg2 _ _ bs)
        by (done || by rewrite <- Hpay).
      unfold state_of, trace_of, after_next. cbn [fst snd broadcastedHashes].
      rewrite Hcache. by destruct (checkAndMark _ _ _).2.
  - assert (GetMethod msg2 ≠ method) as Hm2 by congruence.
    rewrite !intercept_other by done. by rewrite !call_eq.
Qed.

(** X7.  Two messages with the same method and the same payload are one
    and the same to the deduplication, whatever else the envelopes carry,
    whatever handlers follow and in whatever orders the runtime iterates:
    from equal caches, either both messages are broadcast or neither is.
    The caches afterwards are equal as well when no eviction can run (the
    cache holds fewer than 10000 entries) or when the two iterations follow
    the same order; at a full cache two different orders may evict
    different entries. *)
Theorem broadcast_ignores_envelope cfg method order1 order2 ctx1 ctx2
    msg1 msg2 next1 next2 s1 s2 :
  GetMethod msg1 = GetMethod msg2 →
  GetProtoMessage msg1 = GetProtoMessage msg2 →
  broadcastedHashes s1 = broadcastedHashes s2 →
  (spawns (trace_of
     (NewBroadcastInterceptor cfg method order1 ctx1 msg1 next1 s1)) = []
   ↔ spawns (trace_of
       (NewBroadcastInterceptor cfg method order2 ctx2 msg2 next2 s2)) = [])
  ∧ (Z.of_nat (size (broadcastedHashes s1)) < cacheLimit
     ∨ (∀ m, order1 m = order2 m) →
     broadcastedHashes
       (state_of (NewBroadcastInterceptor cfg method order1 ctx1 msg1 next1
                    s1))
     = broadcastedHashes
         (state_of (NewBroadcastInterceptor cfg method order2 ctx2 msg2 next2
                      s2))).
Proof.
  intros Hmeth Hpay Hcache.
  destruct (decide (GetMethod msg1 = method)) as [Hm|Hm].
  - assert (GetMethod msg2 = method) as Hm2 by congruence.
    destruct (Marshal (GetProtoMessage msg1)) as [bs [e|]] eqn:Hb.
    + rewrite (intercept_marshal_error _ _ _ _ msg1 _ _ bs e) by done.
      rewrite (intercept_marshal_error _ _ _ _ msg2 _ _ bs e)
        by (done || by rewrite <- Hpay).
      done.
    + rewrite (intercept_marshalled _ _ _ _ msg1 _ _ bs) by done.
      rewrite (intercept_marshalled _ _ _ _ msg2 _ _ bs)
        by (done || by rewrite <- Hpay).
      unfold state_of, trace_of, after_next. cbn [fst snd broadcastedHashes].
      rewrite !checkAndMark_flag, Hcache. split.
      * by destruct (bool_decide _).
      * intros [Hroom|Horders].
        -- destruct (decide (fingerprint bs ∈ broadcastedHashes s2)).
           ++ by rewrite !checkAndMark_seen.
           ++ by rewrite !checkAndMark_room.
        -- unfold checkAndMark. by rewrite Horders.
  - assert (GetMethod msg2 ≠ method) as Hm2 by congruence.
    rewrite !intercept_other by done. by rewrite !call_eq.
Qed.

(** One step of the handlers called directly. *)
Lemma run_handlers_cons a arrivals (w : World) :
  run_handlers (a :: arrivals) w
  = ((arr_next a (arr_ctx a) (arr_msg a) w).1
       :: (run_handlers arrivals (arr_next a (arr_ctx a) (arr_msg a) w).2).1,
     (run_handlers arrivals (arr_next a (arr_ctx a) (arr_msg a) w).2).2).
Proof.
  cbn [run_handlers].
  destruct (arr_next a (arr_ctx a) (arr_msg a) w) as [out w1]. cbn [fst snd].
  by destruct (run_handlers arrivals w1).
Qed.

(** X8.  The interceptor is invisible to the application over any delivery:
    whatever the methods, payloads, serialization errors, iteration orders
    and cache contents, the responses and errors returned are, in order,
    those of the handlers called directly one after the other, and the
    application ends in the same state.  No message is dropped, repeated or
    reordered on its way to [next]. *)
Theorem deliver_runs_handlers_in_order cfg method arrivals s :
  (deliver (NewBroadcastInterceptor cfg method) arrivals s).1.*1
  = (run_handlers arrivals (world s)).1
  ∧ world (deliver (NewBroadcastInterceptor cfg method) arrivals s).2
    = (run_handlers arrivals (world s)).2.
Proof.
  revert s. induction arrivals as [|a arrivals IH]; intros s; [done|].
  rewrite deliver_cons, run_handlers_cons. cbn zeta. cbn [fst snd].
  rewrite fmap_cons. cbn [fst snd].
  destruct (IH (state_of (NewBroadcastInterceptor cfg method (arr_order a)
                            (arr_ctx a) (arr_msg a) (arr_next a) s)))
    as [IH1 IH2].
  rewrite broadcast_world in IH1, IH2.
  rewrite IH1, IH2. split; [|done]. f_equal.
  apply broadcast_returns_next.
Qed.

(** X9.  Below capacity the interceptor deduplicates exactly: when the cache has
    room for every arrival, a delivery of messages that reach the critical
    section broadcasts each fingerprint at its first sighting and at no
    other arrival, in any mix of new and repeated payloads, and the cache
    ends as the old one with the fingerprints of the delivery added.  The
    iteration order plays no part. *)
Theorem broadcast_first_sightings_below_capacity cfg method arrivals : ∀ s,
  Forall (reaches_cache method) arrivals →
  Z.of_nat (size (broadcastedHashes s)) + Z.of_nat (length arrivals)
    ≤ cacheLimit →
  spawned (deliver (NewBroadcastInterceptor cfg method) arrivals s).1
  = first_sightings cfg method (broadcastedHashes s) arrivals
  ∧ broadcastedHashes
      (deliver (NewBroadcastInterceptor cfg method) arrivals s).2
    = list_to_set (arr_fp <$> arrivals) ∪ broadcastedHashes s.
Proof.
  induction arrivals as [|a arrivals IH]; intros s Hall Hsz.
  - split; [done|]. cbn [deliver snd fmap list_fmap list_to_set]. set_solver.
  - apply Forall_cons in Hall as [Ha Hall]. cbn [length] in Hsz.
    rewrite deliver_cons. cbn zeta. cbn [fst snd first_sightings].
    rewrite (intercept_reaching cfg method a s Ha).
    unfold spawned, out_of, state_of, trace_of, after_next.
    rewrite fmap_cons. cbn [fst snd].
    set (s1 := mkState _ _).
    assert (broadcastedHashes s1
            = {[ arr_fp a ]} ∪ broadcastedHashes s
            ∧ (checkAndMark (arr_order a) (arr_fp a) (broadcastedHashes s)).2
              = bool_decide (arr_fp a ∈ broadcastedHashes s)
            ∧ Z.of_nat (size (broadcastedHashes s1))
              ≤ Z.of_nat (size (broadcastedHashes s)) + 1) as (Hs1 & Hflag & Hsz1).
    { subst s1. cbn [broadcastedHashes]. rewrite checkAndMark_flag.
      destruct (decide (arr_fp a ∈ broadcastedHashes s)) as [Hin|Hnew].
      - rewrite checkAndMark_seen by done. cbn [fst].
        split; [set_solver|]. split; [done|lia].
      - rewrite checkAndMark_room by (done || lia). cbn [fst].
        split; [done|]. split; [done|].
        rewrite size_union by set_solver. rewrite size_singleton. lia. }
    destruct (IH s1 Hall ltac:(lia)) as [IH1 IH2].
    unfold spawned in IH1. rewrite IH1, IH2, Hs1, Hflag.
    split.
    + f_equal. by case_bool_decide.
    + rewrite fmap_cons, list_to_set_cons. set_solver.
Qed.

(** X10.  The selective variant keeps no record of what it broadcast: over any
    delivery it spawns its broadcast at every arrival of the configured
    method whose payload satisfies the predicate, repeats of one payload
    included, and it never touches the cache. *)
Theorem selective_never_deduplicates cfg method shouldBroadcast arrivals :
  ∀ s,
  spawned (deliver (NewSelectiveBroadcastInterceptor cfg method
                      shouldBroadcast) arrivals s).1
  = (λ a, if bool_decide (GetMethod (arr_msg a) = method)
               && shouldBroadcast (GetProtoMessage (arr_msg a))
          then [GoSelectiveBroadcast cfg method (arr_msg a)] else [])
    <$> arrivals
  ∧ broadcastedHashes
      (deliver (NewSelectiveBroadcastInterceptor cfg method shouldBroadcast)
         arrivals s).2
    = broadcastedHashes s.
Proof.
  induction arrivals as [|a arrivals IH]; intros s; [done|].
  rewrite deliver_cons. cbn zeta. cbn [fst snd].
  rewrite selective_paths.
  unfold spawned, out_of, state_of, trace_of, after_next.
  rewrite !fmap_cons. cbn [fst snd].
  set (s1 := mkState _ _).
  destruct (IH s1) as [IH1 IH2]. unfold spawned in IH1.
  rewrite IH1, IH2. split; [|done]. f_equal.
  case_bool_decide as Hm.
  - rewrite Hm, String.eqb_refl. cbn.
    by destruct (shouldBroadcast (GetProtoMessage (arr_msg a))).
  - apply String.eqb_neq in Hm. by rewrite Hm.
Qed.
End Content.

(** * The chain of the storage server *)

Section ChainFacts.
Context `{MW : Middleware}.
Implicit Types (cfg : Configuration) (method : string) (ctx : ServerCtx)
  (msg : Message) (handler : Handler) (s : State)
  (order : gset string → list string).

(** X5.  A write of the key "foo" to the storage server stops at the second
    stage of its chain: the caller gets a nil response and the error, the
    handler is not called and the application is as before, the
    fingerprint cache is as before, and the chain contributes no event but
    log lines, so nothing is broadcast. *)
Theorem storage_chain_rejects_foo cfg method order handler ctx msg s
    (req : Req) :
  asT (AsProto (Some msg)) = Some req →
  GetKey req = "foo" →
  wout (storage_chain cfg method order handler ctx msg s)
  = (None, Some (Errorf "requests for key 'foo' are not allowed"))
  ∧ wstate (storage_chain cfg method order handler ctx msg s) = s
  ∧ inner (wtrace (storage_chain cfg method order handler ctx msg s)) = [].
Proof.
  intros Hreq Hkey.
  unfold storage_chain, chain. cbn [foldr].
  unfold LoggingSimpleInterceptor, NoFooAllowedInterceptor.
  rewrite Hreq, Hkey. by repeat split.
Qed.

(** X6.  Every other request reaches the broadcast interceptor carrying the one
    metadata entry customKey=customValue in place of its entries, and what
    the caller gets, the state and the events of the chain are those of the
    broadcast interceptor on that message; the handler is called once, on
    it.  When setting entries leaves method and payload alone, the stages
    in front do not change the replication: the cache ends as if the
    broadcast interceptor had received the message directly, and the message
    is broadcast exactly when it would have been. *)
Theorem storage_chain_replicates_other_keys cfg method order handler ctx msg
    s :
  (∀ req, asT (AsProto (Some msg)) = Some req → GetKey req ≠ "foo") →
  (∀ m es, GetMethod (SetEntry m es) = GetMethod m) →
  (∀ m es, GetProtoMessage (SetEntry m es) = GetProtoMessage m) →
  wout (storage_chain cfg method order handler ctx msg s)
  = out_of (NewBroadcastInterceptor cfg method order ctx
              (SetEntry msg [("customKey", "customValue")]) handler s)
  ∧ wstate (storage_chain cfg method order handler ctx msg s)
    = state_of (NewBroadcastInterceptor cfg method order ctx
                  (SetEntry msg [("customKey", "customValue")]) handler s)
  ∧ inner (wtrace (storage_chain cfg method order handler ctx msg s))
    = trace_of (NewBroadcastInterceptor cfg method order ctx
                  (SetEntry msg [("customKey", "customValue")]) handler s)
  ∧ nexts (inner (wtrace (storage_chain cfg method order handler ctx msg s)))
    = [(ctx, SetEntry msg [("customKey", "customValue")])]
  ∧ broadcastedHashes
      (wstate (storage_chain cfg method order handler ctx msg s))
    = broadcastedHashes
        (state_of (NewBroadcastInterceptor cfg method order ctx msg handler s))
  ∧ length (spawns (inner (wtrace
      (storage_chain cfg method order handler ctx msg s))))
    = length (spawns (trace_of
        (NewBroadcastInterceptor cfg method order ctx msg handler s))).
Proof.
  intros Hkey Hmeth Hpay.
  set (tagged := SetEntry msg [("customKey", "customValue")]).
  assert (wout (storage_chain cfg method order handler ctx msg s)
          = out_of (NewBroadcastInterceptor cfg method order ctx tagged
                      handler s)
          ∧ wstate (storage_chain cfg method order handler ctx msg s)
            = state_of (NewBroadcastInterceptor cfg method order ctx tagged
                          handler s)
          ∧ inner (wtrace (storage_chain cfg method order handler ctx msg s))
            = trace_of (NewBroadcastInterceptor cfg method order ctx tagged
                          handler s)) as (Hout & Hst & Htr).
  { unfold storage_chain, chain. cbn [foldr].
    unfold LoggingSimpleInterceptor, NoFooAllowedInterceptor,
      MetadataInterceptor. fold tagged.
    destruct (asT (AsProto (Some msg))) as [req|] eqn:Hreq.
    - pose proof (Hkey req eq_refl) as Hk. apply String.eqb_neq in Hk.
      rewrite Hk.
      unfold wbind, wlog, wret, lift, wout, wstate, wtrace, out_of, state_of,
        trace_of.
      destruct (NewBroadcastInterceptor cfg method order ctx tagged handler s)
        as [[[out err] s1] t]. cbn [fst snd app inner].
      repeat split. rewrite !inner_app, inner_lift. cbn [inner].
      by rewrite !app_nil_r.
    - unfold wbind, wlog, wret, lift, wout, wstate, wtrace, out_of, state_of,
        trace_of.
      destruct (NewBroadcastInterceptor cfg method order ctx tagged handler s)
        as [[[out err] s1] t]. cbn [fst snd app inner].
      repeat split. rewrite !inner_app, inner_lift. cbn [inner].
      by rewrite !app_nil_r. }
  rewrite Hout, Hst, Htr. repeat split.
  - apply broadcast_nexts.
  - apply (broadcast_by_content cfg method order ctx ctx tagged msg handler
             handler s s); [apply Hmeth | apply Hpay | done].
  - apply (broadcast_by_content cfg method order ctx ctx tagged msg handler
             handler s s); [apply Hmeth | apply Hpay | done].
Qed.
End ChainFacts.

(** * The fingerprint as a key *)

Section FingerprintFacts.
Context `{HOST : Host}.

Lemma unhex_hex_byte (b : byte) (rest : string) :
  unhex_bytes (String.append (hex_byte b) rest)
  = match unhex_bytes rest with
    | Some bs => Some (b :: bs)
    | None => None
    end.
Proof.
  destruct b; vm_compute (hex_byte _); unfold String.append;
    cbn [unhex_bytes];
    repeat match goal with
           | |- context [unhex_digit ?c] =>
               let v := eval vm_compute in (unhex_digit c) in
               change (unhex_digit c) with v
           end;
    by destruct (unhex_bytes rest).
Qed.

Lemma unhex_hex (bs : list byte) : unhex_bytes (hex bs) = Some bs.
Proof.
  induction bs as [|b bs IH]; [done|].
  cbn [hex]. by rewrite unhex_hex_byte, IH.
Qed.

Lemma length_hex (bs : list byte) :
  String.length (hex bs) = (2 * length bs)%nat.
Proof.
  induction bs as [|b bs IH]; [done|].
  change (String.length (hex (b :: bs)))
    with (S (S (String.length (hex bs)))).
  rewrite IH. cbn [length]. lia.
Qed.

(** X11.  The hexadecimal form loses nothing: it reads back to the bytes it was
    made from, so two payloads have the same fingerprint exactly when the
    first eight bytes of their digests agree, and a fingerprint has two
    characters for each of those bytes (sixteen for a 32-byte digest).  The
    deduplication therefore confuses two payloads if and only if their
    digests share the 64-bit prefix. *)
Theorem fingerprint_is_digest_prefix :
  (∀ bs : list byte, unhex_bytes (hex bs) = Some bs)
  ∧ (∀ a b : list byte,
       fingerprint a = fingerprint b ↔ take 8 (Sum256 a) = take 8 (Sum256 b))
  ∧ (∀ a : list byte,
       String.length (fingerprint a)
       = (2 * (8 `min` length (Sum256 a)))%nat).
Proof.
  split; [apply unhex_hex|]. split.
  - intros a b. unfold fingerprint. split; [|by intros ->].
    intros Heq. apply (f_equal unhex_bytes) in Heq.
    rewrite !unhex_hex in Heq. by injection Heq.
  - intros a. unfold fingerprint. by rewrite length_hex, length_take.
Qed.
End FingerprintFacts.

(** * The broadcast set-up of [main] *)

Section SetupFacts.
Implicit Types (ls acc : list string) (i j : nat).

Lemma otherNodes_from_delete ls : ∀ i j acc,
  otherNodes_from i j ls acc
  = acc ++ (if decide (j ≤ i)%nat then delete (i - j)%nat ls else ls).
Proof.
  induction ls as [|x ls IH]; intros i j acc.
  - cbn. by destruct (decide _); rewrite app_nil_r.
  - cbn [otherNodes_from]. rewrite IH.
    destruct (decide (i ≠ j)) as [Hne|Heq].
    + rewrite <- app_assoc. f_equal.
      destruct (decide (j ≤ i)%nat) as [Hle|Hgt].
      * rewrite decide_True by lia.
        replace (i - j)%nat with (S (i - S j)) by lia. done.
      * rewrite decide_False by lia. done.
    + assert (i = j) as -> by (destruct (decide (i = j)); [done|tauto]).
      rewrite decide_False by lia. rewrite decide_True by lia.
      by rewrite Nat.sub_diag.
Qed.

Lemma otherNodes_delete i ls : otherNodes i ls = delete i ls.
Proof.
  unfold otherNodes. rewrite otherNodes_from_delete.
  rewrite decide_True by lia. by rewrite Nat.sub_0_r.
Qed.

Lemma elem_of_delete_NoDup ls i (self a : string) :
  NoDup ls → ls !! i = Some self →
  a ∈ delete i ls ↔ a ∈ ls ∧ a ≠ self.
Proof.
  intros Hnd Hi.
  rewrite <- (take_drop_middle ls i self Hi) in Hnd.
  rewrite <- (take_drop_middle ls i self Hi) at 2.
  rewrite delete_take_drop.
  apply NoDup_app in Hnd as (_ & Hdisj & Hnd).
  apply NoDup_cons in Hnd as [Hself _].
  rewrite !elem_of_app, elem_of_cons. split.
  - intros [Hin|Hin].
    + split; [by left|]. intros ->. apply (Hdisj self Hin). by left.
    + split; [by right; right|]. by intros ->.
  - intros [[Hin|[->|Hin]] Hne]; [by left|done|by right].
Qed.

Lemma NoDup_delete ls i : NoDup ls → NoDup (delete i ls).
Proof.
  intros Hnd. apply (sublist_NoDup _ ls); [done|apply sublist_delete].
Qed.

(** X12.  The list of other nodes that [main] builds for the server at index [i]
    of distinct addresses is the list of addresses with entry [i] taken
    out: it has one entry less (the capacity [main] allocates), it keeps the
    other addresses in their order, each once, and it does not contain the
    server's own address. *)
Theorem otherNodes_excludes_self ls i (self : string) :
  NoDup ls → ls !! i = Some self →
  otherNodes i ls = take i ls ++ drop (S i) ls
  ∧ length (otherNodes i ls) = (length ls - 1)%nat
  ∧ NoDup (otherNodes i ls)
  ∧ (self ∉ otherNodes i ls)
  ∧ (∀ a, a ∈ ls → a ≠ self → a ∈ otherNodes i ls).
Proof.
  intros Hnd Hi. rewrite otherNodes_delete.
  split; [apply delete_take_drop|]. split; [|split; [|split]].
  - rewrite length_delete by done. lia.
  - by apply NoDup_delete.
  - intros Hin. by apply (elem_of_delete_NoDup ls i self self Hnd Hi) in Hin
      as [_ Hne].
  - intros a Hin Hne. by apply (elem_of_delete_NoDup ls i self a Hnd Hi).
Qed.

Lemma NoDup_listeners (n : nat) : NoDup (listeners n).
Proof.
  unfold listeners. apply NoDup_fmap_2_strong; [|apply NoDup_seq].
  intros i j _ _ Heq.
  apply (inj (String.app "127.0.0.1:")) in Heq.
  apply (inj pretty) in Heq. lia.
Qed.


End SetupFacts.

(** * A server does not broadcast to itself *)

Section SelfFacts.
Context `{MW : Middleware}.

Lemma length_filter_NoDup (a : string) (l : list string) :
  NoDup l →
  length (filter (λ x, x = a) l) = if decide (a ∈ l) then 1%nat else 0%nat.
Proof.
  induction 1 as [|x l Hx Hnd IH]; [done|].
  rewrite filter_cons. destruct (decide (x = a)) as [->|Hne].
  - cbn [length]. rewrite IH. rewrite decide_False by done.
    rewrite decide_True by (by left). done.
  - rewrite IH. destruct (decide (a ∈ l)) as [Hin|Hout].
    + rewrite decide_True by (by right). done.
    + rewrite decide_False; [done|].
      intros [->|Hin]%elem_of_cons; done.
Qed.

(** X14.  With the node list that [main] builds for a server, and a
    configuration whose nodes have those addresses in some order, the
    fan-out never calls the server itself and calls no server twice, under
    every schedule and whatever the calls return; and once every goroutine
    has run it has called every other server exactly once. *)
Theorem fan_out_skips_self (cfg : Configuration) (method : string)
    (msg : Message) (ls : list string) (i : nat) (self : string) :
  NoDup ls → ls !! i = Some self →
  Address <$> Nodes cfg ≡ₚ otherNodes i ls →
  ∀ (RPCCall : Rpc Node ProtoMessage (option Message) Err) schedule,
    (self ∉ Address <$> called (run_goroutine RPCCall
                                 (GoBroadcast cfg method msg) schedule).2)
    ∧ NoDup (Address <$> called (run_goroutine RPCCall
                                   (GoBroadcast cfg method msg) schedule).2)
    ∧ (runs_all (length (Nodes cfg)) schedule →
       Address <$> called (run_goroutine RPCCall
                             (GoBroadcast cfg method msg) schedule).2
       ≡ₚ otherNodes i ls
       ∧ (∀ a, a ∈ ls → a ≠ self →
            length (filter (λ x, x = a)
                      (Address <$> called (run_goroutine RPCCall
                         (GoBroadcast cfg method msg) schedule).2))
            = 1%nat)).
Proof.
  intros Hnd Hi Hcfg RPCCall schedule. rewrite otherNodes_delete in *.
  cbn [run_goroutine].
  assert (∀ (n : Node) (x : option Message * option Err),
            called (broadcast_return (ProtoMessage:=ProtoMessage) n x) = [])
    as Hret by (by intros n [? ?]).
  set (t := (run_schedule RPCCall broadcast_return
               (Clone (GetProtoMessage msg)) method schedule
               (spawn_all (Nodes cfg))).2).
  pose proof (NoDup_delete ls i Hnd) as Hnd'.
  assert (Address <$> called t ⊆+ delete i ls) as Hsub.
  { rewrite <- Hcfg. apply fmap_submseteq.
    pose proof (run_schedule_called RPCCall broadcast_return
                  (Clone (GetProtoMessage msg)) method schedule Hret
                  (spawn_all (Nodes cfg))) as Hperm.
    rewrite pending_spawn_all in Hperm.
    etrans; [|apply Permutation_submseteq, Hperm].
    by apply submseteq_inserts_r. }
  split; [|split].
  - intros Hin. apply (elem_of_submseteq _ _ _ Hin) in Hsub.
    by apply (elem_of_delete_NoDup ls i self self Hnd Hi) in Hsub as [_ Hne].
  - apply submseteq_sublist_r in Hsub as (l2 & Hperm & Hsl).
    rewrite Hperm. by apply (sublist_NoDup _ _ Hnd').
  - intros Hall.
    assert (Address <$> called t ≡ₚ delete i ls) as Hperm.
    { rewrite <- Hcfg. apply fmap_Permutation.
      by apply run_schedule_all. }
    split; [done|]. intros a Hin Hne.
    rewrite length_filter_NoDup by (by rewrite Hperm).
    rewrite decide_True; [done|]. rewrite Hperm.
    by apply (elem_of_delete_NoDup ls i self a Hnd Hi).
Qed.
End SelfFacts.

(** * The further theorems at concrete inputs *)

Import Cluster.

(** A write of the key "foo" from a client with no peer address. *)
Lemma no_foo_rejects_key_foo_witness :
  NoFooAllowedInterceptor None (Cluster.write "foo" "1") Cluster.serve
    (fresh [])
  = ((None, Some "requests for key 'foo' are not allowed"), fresh [],
     [MwLog "NoFooAllowedInterceptor: Received request for key '%s'"
        [MwString "foo"];
      MwLog "NoFooAllowedInterceptor: Rejecting request for key 'foo'" []]).
Proof.
  exact (no_foo_rejects_key_foo (MW:=Cluster.middleware) None
           (Cluster.write "foo" "1") Cluster.serve (fresh []) ("foo", "1")
           eq_refl eq_refl).
Defined.

(** A write of another key is stored. *)
Lemma no_foo_passes_other_keys_witness :
  wstate (NoFooAllowedInterceptor None (Cluster.write "mykey" "myvalue")
            Cluster.serve (fresh []))
  = mkState ∅ [("mykey", "myvalue")].
Proof.
  refine (proj1 (proj2 (no_foo_passes_other_keys (MW:=Cluster.middleware) None
                          (Cluster.write "mykey" "myvalue") Cluster.serve
                          (fresh []) _))).
  intros req [= <-]. discriminate.
Defined.

(** The client's write and the same write with other metadata. *)
Lemma broadcast_ignores_envelope_witness :
  broadcastedHashes
    (state_of (NewBroadcastInterceptor Cluster.peers1 Cluster.method elements
                 None (Cluster.write "k" "v") Cluster.store (fresh [])))
  = broadcastedHashes
      (state_of (NewBroadcastInterceptor Cluster.peers1 Cluster.method
                   (newest_first "6b3d76") Cluster.from_peer
                   (Cluster.tagged "k" "v") Cluster.store (fresh []))).
Proof.
  refine (proj2 (broadcast_ignores_envelope (HOST:=Cluster.host)
                   Cluster.peers1 Cluster.method elements
                   (newest_first "6b3d76") None Cluster.from_peer
                   (Cluster.write "k" "v") (Cluster.tagged "k" "v")
                   Cluster.store Cluster.store (fresh []) (fresh []) eq_refl
                   eq_refl eq_refl) (or_introl _)).
  unfold fresh. cbn [broadcastedHashes]. rewrite size_empty.
  unfold cacheLimit. lia.
Defined.

(** Two writes and a repeat of the first, to a new instance. *)
Lemma broadcast_first_sightings_below_capacity_witness :
  spawned (deliver (NewBroadcastInterceptor Cluster.peers1 Cluster.method)
             [Cluster.arrive "a" "1"; Cluster.arrive "b" "2";
              Cluster.arrive "a" "1"] (fresh [])).1
  = [[GoBroadcast Cluster.peers1 Cluster.method (Cluster.write "a" "1")];
     [GoBroadcast Cluster.peers1 Cluster.method (Cluster.write "b" "2")];
     []].
Proof.
  refine (proj1 (broadcast_first_sightings_below_capacity
                   (HOST:=Cluster.host) Cluster.peers1 Cluster.method
                   [Cluster.arrive "a" "1"; Cluster.arrive "b" "2";
                    Cluster.arrive "a" "1"] (fresh []) _ _)).
  - repeat (constructor; [by split|]). constructor.
  - unfold fresh. cbn [broadcastedHashes length]. rewrite size_empty.
    unfold cacheLimit. lia.
Defined.

(** A write of the key "foo" to the storage server. *)
Lemma storage_chain_rejects_foo_witness :
  wout (storage_chain Cluster.peers1 Cluster.method elements Cluster.store
          None (Cluster.write "foo" "1") (fresh []))
  = (None, Some "requests for key 'foo' are not allowed")
  ∧ wstate (storage_chain Cluster.peers1 Cluster.method elements
              Cluster.store None (Cluster.write "foo" "1") (fresh []))
    = fresh []
  ∧ inner (wtrace (storage_chain Cluster.peers1 Cluster.method elements
                     Cluster.store None (Cluster.write "foo" "1")
                     (fresh [])))
    = [].
Proof.
  exact (storage_chain_rejects_foo (MW:=Cluster.middleware) Cluster.peers1
           Cluster.method elements Cluster.store None
           (Cluster.write "foo" "1") (fresh []) ("foo", "1") eq_refl
           eq_refl).
Defined.

(** A write of another key to the storage server: the handler sees the
    custom entry in place of the client's. *)
Lemma storage_chain_replicates_other_keys_witness :
  nexts (inner (wtrace (storage_chain Cluster.peers1 Cluster.method elements
                          Cluster.store None
                          (Cluster.write "mykey" "myvalue") (fresh []))))
  = [(None, Cluster.tagged "mykey" "myvalue")].
Proof.
  refine (proj1 (proj2 (proj2 (proj2
    (storage_chain_replicates_other_keys (MW:=Cluster.middleware)
       Cluster.peers1 Cluster.method elements Cluster.store None
       (Cluster.write "mykey" "myvalue") (fresh []) _ _ _))))).
  - intros req [= <-]. discriminate.
  - intros m es. reflexivity.
  - intros m es. reflexivity.
Defined.

(** Server 1 of [main]'s four. *)
Lemma otherNodes_excludes_self_witness :
  otherNodes 1 (listeners 4)
  = ["127.0.0.1:50000"; "127.0.0.1:50002"; "127.0.0.1:50003"].
Proof.
  exact (proj1 (otherNodes_excludes_self (listeners 4) 1 Cluster.server1
                  (NoDup_listeners 4) eq_refl)).
Defined.


(** Server 1 of [main]'s four, none of whose peers answers. *)
Lemma fan_out_skips_self_witness :
  Address (Middleware:=Cluster.middleware)
    <$> called (run_goroutine Cluster.silent
                  (GoBroadcast Cluster.peers1 Cluster.method
                     (Cluster.write "k" "v")) [2; 0; 1; 0]%nat).2
  ≡ₚ ["127.0.0.1:50000"; "127.0.0.1:50002"; "127.0.0.1:50003"].
Proof.
  destruct (fan_out_skips_self (MW:=Cluster.middleware) Cluster.peers1
              Cluster.method (Cluster.write "k" "v") (listeners 4) 1
              Cluster.server1 (NoDup_listeners 4) eq_refl
              (Permutation_refl _) Cluster.silent [2; 0; 1; 0]%nat)
    as (_ & _ & Hall).
  apply Hall. intros j Hj. assert (j < 3)%nat as Hj' by exact Hj.
  destruct j as [|[|[|j]]];
    [repeat first [apply list_elem_of_here | apply list_elem_of_further]..
    |lia].
Defined.

(** A write to the storage server from the peer at 127.0.0.1:40000, behind
    the delaying stage: the sleep is 1.5 s for the fifteen bytes of the
    address. *)
Example delayed_write :
  sleeps (wtrace (DelayedInterceptor Cluster.from_peer
                    (Cluster.write "mykey" "myvalue") Cluster.serve
                    (fresh [])))
  = [1500000000].
Proof. reflexivity. Qed.
